(** * BurnCloud GCP passthrough proxy (main.py)

    A shallow embedding of the credential manager [GoogleAuthManager], the
    dependency [verify_api_key] and the route [proxy_vertex_predict], and the
    properties of the request pipeline proved over it.

    Python exceptions are values of [exn]; a computation threads the process
    state [World], may raise, and emits the events (log lines, round trips)
    it performs.  Everything the file talks to -- the clock, the identity
    provider, the upstream endpoint, the JSON codec -- is a field of
    [Deployment], so the statements hold for every behaviour of those. *)

From Stdlib Require Import ZArith List String Ascii Bool Lia DecimalString.
Import ListNotations.
Local Open Scope Z_scope.
Local Open Scope string_scope.

(** ** Strings *)

(** [str.split(sep)] for a one-character separator: every occurrence of
    [sep] cuts, so two adjacent separators enclose an empty field and the
    empty string splits into one empty field. *)
Fixpoint split (sep : ascii) (s : string) : list string :=
  match s with
  | EmptyString => [EmptyString]
  | String c rest =>
      if Ascii.eqb c sep then EmptyString :: split sep rest
      else match split sep rest with
           | [] => [String c EmptyString]
           | field :: fields => String c field :: fields
           end
  end.

(** [s[:n]] *)
Definition take (n : nat) (s : string) : string := substring 0 n s.

(** [str(n)] for an integer *)
Definition str_Z (n : Z) : string := NilZero.string_of_int (Z.to_int n).

(** ** Data model *)

(** One entry of [VALID_API_KEYS]. *)
Record ClientIdentity := mkIdentity { name : string; active : bool }.

Definition KeyTable := list (string * ClientIdentity).

(** [table.get(key)]: the dict literal has distinct keys, the first match is
    the entry. *)
Fixpoint lookup (key : string) (table : KeyTable) : option ClientIdentity :=
  match table with
  | [] => None
  | (k, ident) :: rest => if String.eqb key k then Some ident else lookup key rest
  end.

(** The table shipped in main.py, lines 21-24. *)
Definition VALID_API_KEYS : KeyTable :=
  [ ("sk-client-veo-001", mkIdentity "VIP Client A" true);
    ("sk-burncloud-admin", mkIdentity "Admin Test" true) ].

(** The service-account credentials object held by the manager: the access
    token and its expiry (seconds), both absent until the first refresh. *)
Record Credentials := mkCredentials { token : option string; expiry : option Z }.

(** What the route reads of the inbound request. *)
Record Request := mkRequest { authorization : option string; raw_body : string }.

(** The upstream answer ([httpx.Response]) and the answer to the client
    ([JSONResponse]). *)
Record UpstreamResponse := mkUpstream { upstream_status : Z; upstream_body : string }.
Record JSONResponse := mkResponse { status_code : Z; content : string }.

Inductive exn : Type :=
| HTTPException (status : Z) (detail : string)
| RuntimeError (msg : string)
| RefreshError  (* raised by credentials.refresh *)
| JSONDecodeError
| RequestError (msg : string)  (* httpx.RequestError *)
| Uncaught (what : string).  (* any other exception class *)

(** [str(e)] as interpolated in the log lines. *)
Definition exn_str (e : exn) : string :=
  match e with
  | HTTPException s d => str_Z s ++ ": " ++ d
  | RuntimeError m => m
  | RefreshError => "RefreshError"
  | JSONDecodeError => "JSONDecodeError"
  | RequestError m => m
  | Uncaught what => what
  end.

(** Outcome of [client.post]: a response of any status, a transport failure
    ([httpx.RequestError] and its subclasses), or another exception. *)
Inductive post_result : Type :=
| Responded (r : UpstreamResponse)
| RequestFailed (msg : string)
| PostCrashed (what : string).

(** Outcome of [json.loads]: a value, [json.JSONDecodeError], or another
    exception (for instance a body that is not valid UTF-8). *)
Inductive load_result (J : Type) : Type :=
| Loaded (v : J)
| DecodeError
| LoadCrashed (what : string).
Arguments Loaded {J} v.
Arguments DecodeError {J}.
Arguments LoadCrashed {J} what.

(** State of the key file at start-up: [os.path.exists] is false, or the
    file is there and [from_service_account_file] raises or succeeds. *)
Inductive key_source : Type := KeyAbsent | KeyUnreadable | KeyLoaded.

(** The configuration and the collaborators of one running process.  The
    n-th reading of the clock, the n-th round trip to the identity provider
    and the n-th POST to the upstream are functions of n, which leaves their
    behaviour arbitrary. *)
Record Deployment : Type := mkDeployment {
  payload : Type;  (* parsed JSON, opaque to the proxy *)
  KEY_PATH : string;
  PROJECT_ID : string;
  REGION : string;
  API_KEYS : KeyTable;
  REFRESH_THRESHOLD : Z;  (* clock skew the credentials subtract from expiry *)
  utcnow : nat -> Z;
  jwt_grant : nat -> option (string * Z);  (* token and expiry, or failure *)
  client_post : nat -> string -> payload -> string -> post_result;
  json_loads : string -> load_result payload;
  json_dumps : payload -> option string  (* None: ValueError, e.g. NaN *)
}.

(** ** The JSON codec on a fragment

    [json.loads] and [json.dumps(..., ensure_ascii=False, allow_nan=False,
    separators=(",", ":"))] on JSON texts made of objects, arrays, strings
    with the one-letter escapes, integers and the three literals, in ASCII.
    A text that uses anything else (a fraction or an exponent, NaN, a
    u-escape, a byte beyond ASCII, more digits than int() accepts) is
    reported as [Outside]: the fragment says nothing about it.  The concrete
    runs below stay inside the fragment; the general statements are about an
    arbitrary codec. *)
Module Json.

#[warnings="-register-all"]
Inductive value : Type :=
| Null
| Bool (b : bool)
| Int (n : Z)
| Str (s : string)
| Arr (items : list value)
| Obj (members : list (string * value)).

Inductive scanned (A : Type) : Type :=
| Ok (a : A) (rest : string)
| Invalid
| Outside.
Arguments Ok {A} a rest.
Arguments Invalid {A}.
Arguments Outside {A}.

Definition code (c : ascii) : nat := nat_of_ascii c.
Definition byte (n : nat) (c : ascii) : bool := Nat.eqb (code c) n.

Definition quote : ascii := ascii_of_nat 34.
Definition backslash : ascii := ascii_of_nat 92.
Definition chr (n : nat) : string := String (ascii_of_nat n) EmptyString.

Fixpoint skip_ws (s : string) : string :=
  match s with
  | String c rest =>
      if byte 32 c || byte 9 c || byte 10 c || byte 13 c then skip_ws rest else s
  | EmptyString => s
  end.

Fixpoint drop (n : nat) (s : string) : string :=
  match n, s with
  | S n', String _ rest => drop n' rest
  | _, _ => s
  end.

Definition then_cons (c : ascii) (r : scanned string) : scanned string :=
  match r with
  | Ok s rest => Ok (String c s) rest
  | Invalid => Invalid
  | Outside => Outside
  end.

(** The character an escape letter stands for. *)
Definition unescape (e : ascii) : scanned ascii :=
  if byte 34 e then Ok quote ""
  else if byte 92 e then Ok backslash ""
  else if byte 47 e then Ok (ascii_of_nat 47) ""
  else if byte 98 e then Ok (ascii_of_nat 8) ""
  else if byte 102 e then Ok (ascii_of_nat 12) ""
  else if byte 110 e then Ok (ascii_of_nat 10) ""
  else if byte 114 e then Ok (ascii_of_nat 13) ""
  else if byte 116 e then Ok (ascii_of_nat 9) ""
  else if byte 117 e then Outside
  else Invalid.

(** The text after an opening quote, up to the closing one. *)
Fixpoint scan_string (s : string) : scanned string :=
  match s with
  | EmptyString => Invalid
  | String c rest =>
      if byte 34 c then Ok "" rest
      else if byte 92 c then
        match rest with
        | EmptyString => Invalid
        | String e rest' =>
            match unescape e with
            | Ok ch _ => then_cons ch (scan_string rest')
            | Invalid => Invalid
            | Outside => Outside
            end
        end
      else if Nat.ltb (code c) 32 then Invalid
      else then_cons c (scan_string rest)
  end.

Definition digit (c : ascii) : option Z :=
  let n := code c in
  if Nat.leb 48 n && Nat.leb n 57 then Some (Z.of_nat (n - 48)) else None.

(** Reads digits into [acc]; also returns how many were read. *)
Fixpoint scan_digits (acc : Z) (count : nat) (s : string) : Z * nat * string :=
  match s with
  | String c rest =>
      match digit c with
      | Some d => scan_digits (10 * acc + d) (S count) rest
      | None => (acc, count, s)
      end
  | EmptyString => (acc, count, s)
  end.

Definition starts_fraction (s : string) : bool :=
  match s with
  | String c _ => byte 46 c || byte 101 c || byte 69 c
  | EmptyString => false
  end.

(** An integer literal: 0 or a non-zero digit followed by digits. *)
Definition scan_magnitude (s : string) : scanned Z :=
  match s with
  | String c rest =>
      match digit c with
      | Some 0 => if starts_fraction rest then Outside else Ok 0 rest
      | Some d =>
          let '(n, count, rest') := scan_digits d 1 rest in
          if starts_fraction rest' || Nat.ltb 4300 count then Outside
          else Ok n rest'
      | None => if byte 73 c || byte 78 c then Outside else Invalid
      end
  | EmptyString => Invalid
  end.

Definition scan_number (s : string) : scanned value :=
  match s with
  | String c rest =>
      if byte 45 c then
        match scan_magnitude rest with
        | Ok n rest' => Ok (Int (- n)) rest'
        | Invalid => Invalid
        | Outside => Outside
        end
      else
        match scan_magnitude s with
        | Ok n rest' => Ok (Int n) rest'
        | Invalid => Invalid
        | Outside => Outside
        end
  | EmptyString => Invalid
  end.

(** A dict assignment: an existing key keeps its place and takes the new
    value, a new key goes last. *)
Fixpoint assign (key : string) (v : value) (members : list (string * value))
  : list (string * value) :=
  match members with
  | [] => [(key, v)]
  | (k, old) :: rest =>
      if String.eqb k key then (k, v) :: rest else (k, old) :: assign key v rest
  end.

Fixpoint scan_once (fuel : nat) (s : string) : scanned value :=
  match fuel with
  | O => Outside
  | S fuel' =>
      match s with
      | EmptyString => Invalid
      | String c rest =>
          if byte 34 c then
            match scan_string rest with
            | Ok text rest' => Ok (Str text) rest'
            | Invalid => Invalid
            | Outside => Outside
            end
          else if byte 123 c then
            match skip_ws rest with
            | String c' rest' =>
                if byte 125 c' then Ok (Obj []) rest'
                else scan_members fuel' [] (String c' rest')
            | EmptyString => Invalid
            end
          else if byte 91 c then
            match skip_ws rest with
            | String c' rest' =>
                if byte 93 c' then Ok (Arr []) rest'
                else scan_items fuel' [] (String c' rest')
            | EmptyString => Invalid
            end
          else if String.prefix "null" s then Ok Null (drop 4 s)
          else if String.prefix "true" s then Ok (Bool true) (drop 4 s)
          else if String.prefix "false" s then Ok (Bool false) (drop 5 s)
          else scan_number s
      end
  end
with scan_items (fuel : nat) (seen : list value) (s : string) : scanned value :=
  match fuel with
  | O => Outside
  | S fuel' =>
      match scan_once fuel' s with
      | Ok v rest =>
          match skip_ws rest with
          | String c rest' =>
              if byte 93 c then Ok (Arr (rev (v :: seen))) rest'
              else if byte 44 c then scan_items fuel' (v :: seen) (skip_ws rest')
              else Invalid
          | EmptyString => Invalid
          end
      | Invalid => Invalid
      | Outside => Outside
      end
  end
with scan_members (fuel : nat) (seen : list (string * value)) (s : string)
  : scanned value :=
  match fuel with
  | O => Outside
  | S fuel' =>
      match s with
      | String c rest =>
          if byte 34 c then
            match scan_string rest with
            | Ok key rest1 =>
                match skip_ws rest1 with
                | String c1 rest2 =>
                    if byte 58 c1 then
                      match scan_once fuel' (skip_ws rest2) with
                      | Ok v rest3 =>
                          match skip_ws rest3 with
                          | String c3 rest4 =>
                              if byte 125 c3 then Ok (Obj (assign key v seen)) rest4
                              else if byte 44 c3 then
                                scan_members fuel' (assign key v seen) (skip_ws rest4)
                              else Invalid
                          | EmptyString => Invalid
                          end
                      | Invalid => Invalid
                      | Outside => Outside
                      end
                    else Invalid
                | EmptyString => Invalid
                end
            | Invalid => Invalid
            | Outside => Outside
            end
          else Invalid
      | EmptyString => Invalid
      end
  end.

Fixpoint plain (s : string) : bool :=
  match s with
  | String c rest => Nat.ltb 0 (code c) && Nat.ltb (code c) 128 && plain rest
  | EmptyString => true
  end.

Definition loads (s : string) : scanned value :=
  if plain s then
    match scan_once (2 * String.length s + 2) (skip_ws s) with
    | Ok v rest =>
        match skip_ws rest with
        | EmptyString => Ok v ""
        | String _ _ => Invalid
        end
    | Invalid => Invalid
    | Outside => Outside
    end
  else Outside.

Definition hex_digit (n : nat) : string :=
  chr (if Nat.ltb n 10 then 48 + n else 87 + n).

Definition escape_char (c : ascii) : string :=
  let n := code c in
  if Nat.eqb n 34 then chr 92 ++ chr 34
  else if Nat.eqb n 92 then chr 92 ++ chr 92
  else if Nat.eqb n 8 then chr 92 ++ "b"
  else if Nat.eqb n 12 then chr 92 ++ "f"
  else if Nat.eqb n 10 then chr 92 ++ "n"
  else if Nat.eqb n 13 then chr 92 ++ "r"
  else if Nat.eqb n 9 then chr 92 ++ "t"
  else if Nat.ltb n 32 then
    chr 92 ++ "u00" ++ hex_digit (Nat.div n 16) ++ hex_digit (Nat.modulo n 16)
  else String c EmptyString.

Fixpoint escape (s : string) : string :=
  match s with
  | String c rest => escape_char c ++ escape rest
  | EmptyString => EmptyString
  end.

Definition quoted (s : string) : string := chr 34 ++ escape s ++ chr 34.

Fixpoint dumps (v : value) : string :=
  match v with
  | Null => "null"
  | Bool true => "true"
  | Bool false => "false"
  | Int n => str_Z n
  | Str s => quoted s
  | Arr items => "[" ++ String.concat "," (map dumps items) ++ "]"
  | Obj members =>
      "{" ++ String.concat ","
               (map (fun member => let '(k, x) := member in quoted k ++ ":" ++ dumps x)
                    members) ++ "}"
  end.

End Json.

(** Mutable process state: the manager's credentials (None when degraded)
    and how many times each collaborator has been used. *)
Record World : Type := mkWorld {
  creds : option Credentials;
  clock_reads : nat;
  refreshes : nat;
  posts : nat
}.

Definition boot : World := mkWorld None 0 0 0.

Inductive stage : Type :=
| Authenticate | ParseBody | BuildTarget | FetchToken | Forward | Relay.

Inductive level : Type := INFO | WARNING | ERROR.

(** Things a computation does that an observer can see, in order; [J] is
    the type of parsed JSON. *)
Inductive event (J : Type) : Type :=
| Log (lv : level) (msg : string)
| Enter (s : stage)
| Refresh (answer : option (string * Z))
| Post (url : string) (data : J) (auth : string) (answer : post_result).
Arguments Log {J} lv msg.
Arguments Enter {J} s.
Arguments Refresh {J} answer.
Arguments Post {J} url data auth answer.

(** ** Computations *)

Record Run (J A : Type) : Type := mkRun {
  outcome : A + exn;
  after : World;
  emitted : list (event J)
}.
Arguments mkRun {J A} outcome after emitted.
Arguments outcome {J A} r.
Arguments after {J A} r.
Arguments emitted {J A} r.

(** A coroutine: finished, or suspended at an await with the code that runs
    without interruption when the event loop resumes it. *)
#[warnings="-register-all"]
Inductive coroutine (J A : Type) : Type :=
| Done (r : A + exn)
| Await (resume : World -> coroutine J A * World * list (event J)).
Arguments Done {J A} r.
Arguments Await {J A} resume.

Section Proxy.

Variable D : Deployment.

Local Abbreviation event := (event (payload D)).
Local Abbreviation Run := (Run (payload D)).
Local Abbreviation coroutine := (coroutine (payload D)).

Definition M (A : Type) : Type := World -> Run A.

Definition ret {A} (a : A) : M A := fun w => mkRun (inl a) w [].

Definition raise {A} (e : exn) : M A := fun w => mkRun (inr e) w [].

Definition bind {A B} (m : M A) (f : A -> M B) : M B := fun w =>
  match m w with
  | mkRun (inl a) w1 ev1 =>
      match f a w1 with
      | mkRun o w2 ev2 => mkRun o w2 (ev1 ++ ev2)%list
      end
  | mkRun (inr e) w1 ev1 => mkRun (inr e) w1 ev1
  end.

(** [try: m  except ...: handler e]; a handler re-raises what it does not
    catch. *)
Definition try_except {A} (m : M A) (handler : exn -> M A) : M A := fun w =>
  match m w with
  | mkRun (inl a) w1 ev1 => mkRun (inl a) w1 ev1
  | mkRun (inr e) w1 ev1 =>
      match handler e w1 with
      | mkRun o w2 ev2 => mkRun o w2 (ev1 ++ ev2)%list
      end
  end.

Definition emit (e : event) : M unit := fun w => mkRun (inl tt) w [e].

Definition logger (lv : level) (msg : string) : M unit := emit (Log lv msg).

Notation "x <- m ;; k" := (bind m (fun x => k))
  (at level 61, m at next level, right associativity).
Notation "m ;; k" := (bind m (fun _ => k))
  (at level 61, right associativity).

(** ** GoogleAuthManager *)

(** [__init__], lines 41-52. *)
Definition GoogleAuthManager_init (src : key_source) : M unit :=
  match src with
  | KeyAbsent =>
      logger WARNING ("GCP Credential file NOT found at: " ++ KEY_PATH D
                      ++ ". GCP calls will fail.") ;;
      fun w => mkRun (inl tt) (mkWorld None (clock_reads w) (refreshes w) (posts w)) []
  | KeyUnreadable =>
      logger INFO ("Loading GCP credentials from " ++ KEY_PATH D) ;;
      raise (Uncaught "from_service_account_file")
  | KeyLoaded =>
      logger INFO ("Loading GCP credentials from " ++ KEY_PATH D) ;;
      fun w => mkRun (inl tt)
                 (mkWorld (Some (mkCredentials None None))
                          (clock_reads w) (refreshes w) (posts w)) []
  end.

(** The credentials' [expired] and [valid] properties at an instant [t]. *)
Definition expired_at (c : Credentials) (t : Z) : bool :=
  match expiry c with
  | None => false
  | Some e => (e - REFRESH_THRESHOLD D <=? t)%Z
  end.

Definition valid_at (c : Credentials) (t : Z) : bool :=
  match token c with
  | None => false
  | Some _ => negb (expired_at c t)
  end.

Definition read_clock : M Z := fun w =>
  mkRun (inl (utcnow D (clock_reads w)))
        (mkWorld (creds w) (S (clock_reads w)) (refreshes w) (posts w)) [].

(** Reading the property reads the clock, unless there is no expiry. *)
Definition creds_expired (c : Credentials) : M bool :=
  match expiry c with
  | None => ret false
  | Some _ => now <- read_clock ;; ret (expired_at c now)
  end.

(** [token is not None and not expired], evaluated left to right. *)
Definition creds_valid (c : Credentials) : M bool :=
  match token c with
  | None => ret false
  | Some _ => x <- creds_expired c ;; ret (negb x)
  end.

(** [creds.refresh(auth_req)]: one round trip; the token and the expiry are
    assigned only once the grant has come back. *)
Definition creds_refresh : M unit := fun w =>
  let answer := jwt_grant D (refreshes w) in
  match answer with
  | Some (t, e) =>
      mkRun (inl tt)
            (mkWorld (Some (mkCredentials (Some t) (Some e)))
                     (clock_reads w) (S (refreshes w)) (posts w))
            [Refresh answer]
  | None =>
      mkRun (inr RefreshError)
            (mkWorld (creds w) (clock_reads w) (S (refreshes w)) (posts w))
            [Refresh answer]
  end.

Definition read_creds : M (option Credentials) := fun w => mkRun (inl (creds w)) w [].

(** [get_token], lines 54-66. *)
Definition get_token : M (option string) :=
  held <- read_creds ;;
  match held with
  | None => raise (RuntimeError "GCP Credentials not initialized")
  | Some c =>
      v <- creds_valid c ;;
      (if negb v then
         logger INFO "Refreshing GCP access token..." ;; creds_refresh
       else
         x <- creds_expired c ;;
         if x then logger INFO "GCP token expired, refreshing..." ;; creds_refresh
         else ret tt) ;;
      now_held <- read_creds ;;
      ret (match now_held with Some c' => token c' | None => None end)
  end.

(** ** verify_api_key, lines 73-88 *)

Definition verify_api_key (request : Request) : M string :=
  match authorization request with
  | None => raise (HTTPException 401 "Missing or invalid Authorization header")
  | Some auth_header =>
      if String.eqb auth_header "" || negb (String.prefix "Bearer " auth_header) then
        raise (HTTPException 401 "Missing or invalid Authorization header")
      else
        match nth_error (split " " auth_header) 1 with
        | None => raise (Uncaught "IndexError")
        | Some api_key =>
            match lookup api_key (API_KEYS D) with
            | None =>
                logger WARNING ("Unauthorized access attempt with key: "
                                ++ take 8 api_key ++ "***") ;;
                raise (HTTPException 401 "Invalid API Key")
            | Some ident =>
                if negb (active ident) then
                  raise (HTTPException 403 "API Key is inactive")
                else ret api_key
            end
        end
  end.

(** ** proxy_vertex_predict, lines 96-154 *)

(** [await request.json()] and [response.json()] *)
Definition parse_json (what : string) (raw : string) : M (payload D) :=
  match json_loads D raw with
  | Loaded v => ret v
  | DecodeError => raise JSONDecodeError
  | LoadCrashed why => raise (Uncaught (what ++ ": " ++ why))
  end.

Definition google_url (model_name : string) : string :=
  "https://" ++ REGION D ++ "-aiplatform.googleapis.com/v1/projects/"
  ++ PROJECT_ID D ++ "/locations/" ++ REGION D
  ++ "/publishers/google/models/" ++ model_name ++ ":predict".

(** An f-string prints a missing token as the word None. *)
Definition bearer (gcp_token : option string) : string :=
  "Bearer " ++ match gcp_token with Some t => t | None => "None" end.

(** [await client.post(url, json=..., headers=..., timeout=120.0)] *)
Definition post (url : string) (data : payload D) (auth : string) : M UpstreamResponse :=
  fun w =>
    let answer := client_post D (posts w) url data auth in
    let w' := mkWorld (creds w) (clock_reads w) (refreshes w) (S (posts w)) in
    mkRun (match answer with
           | Responded r => inl r
           | RequestFailed msg => inr (RequestError msg)
           | PostCrashed what => inr (Uncaught what)
           end) w' [Post url data auth answer].

(** [JSONResponse(content=..., status_code=...)]: the body is rendered when
    the response object is built. *)
Definition render (data : payload D) (status : Z) : M JSONResponse :=
  match json_dumps D data with
  | Some text => ret (mkResponse status text)
  | None => raise (Uncaught "ValueError")
  end.

(** The route together with its dependency, which FastAPI resolves before
    the body of the function runs.  [Enter] marks the six stages of the
    pipeline where the source starts them. *)
Definition proxy_vertex_predict (model_name : string) (request : Request)
  : M JSONResponse :=
  emit (Enter Authenticate) ;;
  api_key <- verify_api_key request ;;
  emit (Enter ParseBody) ;;
  client_payload <-
    try_except (parse_json "request.json" (raw_body request))
      (fun e => match e with
                | JSONDecodeError => raise (HTTPException 400 "Invalid JSON body")
                | _ => raise e
                end) ;;
  user <- match lookup api_key (API_KEYS D) with
          | Some ident => ret (name ident)
          | None => raise (Uncaught "KeyError")
          end ;;
  logger INFO ("Proxying request for model: " ++ model_name ++ " by user: " ++ user) ;;
  emit (Enter BuildTarget) ;;
  let url := google_url model_name in
  emit (Enter FetchToken) ;;
  gcp_token <-
    try_except get_token
      (fun e =>
         logger ERROR ("Token generation failed: " ++ exn_str e) ;;
         raise (HTTPException 500 "Internal Server Error: GCP Auth Failed")) ;;
  emit (Enter Forward) ;;
  response <-
    try_except (post url client_payload (bearer gcp_token))
      (fun e => match e with
                | RequestError msg =>
                    logger ERROR ("Request to Google failed: " ++ msg) ;;
                    raise (HTTPException 502 ("Upstream connection failed: " ++ msg))
                | _ => raise e
                end) ;;
  logger INFO ("Google response status: " ++ str_Z (upstream_status response)) ;;
  (if (400 <=? upstream_status response)%Z then
     logger ERROR ("Upstream Error Body: " ++ upstream_body response)
   else ret tt) ;;
  emit (Enter Relay) ;;
  data <- parse_json "response.json" (upstream_body response) ;;
  render data (upstream_status response).

(** The process handling a list of requests one after the other. *)
Fixpoint serve (requests : list (string * Request)) (w : World) : World :=
  match requests with
  | [] => w
  | (model_name, request) :: later =>
      serve later (after (proxy_vertex_predict model_name request w))
  end.

(** ** Concurrent callers

    Requests are coroutines on one event loop: a coroutine runs without
    interruption from one await to the next, and the loop picks which
    suspended coroutine runs next.  [get_token] is a plain function with no
    await inside and its refresh is a blocking call, so a call of
    [get_token] lies within one uninterrupted piece. *)
(** A coroutine that, once resumed, runs [m] to its end. *)
Definition uninterrupted {A} (m : M A) : coroutine A :=
  Await (fun w => let r := m w in (Done (outcome r), after r, emitted r)).

Definition get_token_caller : coroutine (option string) := uninterrupted get_token.

Definition resume_task {A} (t : coroutine A) (w : World)
  : coroutine A * World * list event :=
  match t with
  | Done r => (Done r, w, [])
  | Await k => k w
  end.

Fixpoint replace_nth {A} (i : nat) (x : A) (l : list A) : list A :=
  match l, i with
  | [], _ => []
  | _ :: rest, O => x :: rest
  | y :: rest, S i' => y :: replace_nth i' x rest
  end.

(** The loop resumes the tasks in the order of [schedule]; an index that
    names no task, or a finished one, changes nothing. *)
Fixpoint event_loop {A} (schedule : list nat) (tasks : list (coroutine A)) (w : World)
  : list (coroutine A) * World * list event :=
  match schedule with
  | [] => (tasks, w, [])
  | i :: later =>
      match nth_error tasks i with
      | None => event_loop later tasks w
      | Some t =>
          let '(t', w', ev) := resume_task t w in
          let '(tasks', w'', ev') := event_loop later (replace_nth i t' tasks) w' in
          (tasks', w'', (ev ++ ev')%list)
      end
  end.

End Proxy.

(** ** Readings of a run *)

Definition is_post {J} (e : event J) : bool :=
  match e with Post _ _ _ _ => true | _ => false end.

Definition is_refresh {J} (e : event J) : bool :=
  match e with Refresh _ => true | _ => false end.

(** The stages a run entered, in order. *)
Fixpoint stages_of {J} (evs : list (event J)) : list stage :=
  match evs with
  | [] => []
  | Enter s :: rest => s :: stages_of rest
  | _ :: rest => stages_of rest
  end.

(** The order in which the source runs the stages. *)
Definition pipeline : list stage :=
  [Authenticate; ParseBody; BuildTarget; FetchToken; Forward; Relay].

(** ** Deployments used in the concrete runs *)

Definition fragment_loads (s : string) : load_result Json.value :=
  match Json.loads s with
  | Json.Ok v _ => Loaded v
  | Json.Invalid => DecodeError
  | Json.Outside => LoadCrashed "outside the fragment"
  end.

(** The defaults of main.py, a clock that advances one second per reading
    from 1000, the codec fragment; the identity provider, the upstream and
    the key table are left to the run. *)
Definition stub (keys : KeyTable) (grant : nat -> option (string * Z))
  (upstream : post_result) : Deployment :=
  {| payload := Json.value;
     KEY_PATH := "vertex_creds.json";
     PROJECT_ID := "your-project-id";
     REGION := "us-central1";
     API_KEYS := keys;
     REFRESH_THRESHOLD := 225;
     utcnow := fun n => 1000 + Z.of_nat n;
     jwt_grant := grant;
     client_post := fun _ _ _ _ => upstream;
     json_loads := fragment_loads;
     json_dumps := fun v => Some (Json.dumps v) |}.

Definition q : string -> string := Json.quoted.

(** The request of the scenarios: a shipped key and the body
    {"instances":[{"prompt":"hi"}]}. *)
Definition scenario_body : string :=
  "{" ++ q "instances" ++ ":[{" ++ q "prompt" ++ ":" ++ q "hi" ++ "}]}".

Definition scenario_request : Request :=
  mkRequest (Some "Bearer sk-client-veo-001") scenario_body.

Definition hour_token (n : nat) : option (string * Z) := Some ("ya29.a0", 4600).

Definition provider_down (n : nat) : option (string * Z) := None.

(** A manager whose key was loaded and that has not fetched a token yet. *)
Definition ready : World := mkWorld (Some (mkCredentials None None)) 0 0 0.

(** The upstream answer of the scenarios, {"predictions":["ok"]}, as the
    codec writes it, and the same value with a space after the colon. *)
Definition compact_body : string := "{" ++ q "predictions" ++ ":[" ++ q "ok" ++ "]}".
Definition spaced_body : string := "{" ++ q "predictions" ++ ": [" ++ q "ok" ++ "]}".

(** An error body as a provider sends it with a 429, and its compact form. *)
Definition quota_body : string := "{" ++ q "error" ++ ": {" ++ q "code" ++ ": 429}}".
Definition quota_compact : string := "{" ++ q "error" ++ ":{" ++ q "code" ++ ":429}}".

Definition scenario_payload : Json.value :=
  Json.Obj [("instances", Json.Arr [Json.Obj [("prompt", Json.Str "hi")]])].

Definition scenario_url : string :=
  "https://us-central1-aiplatform.googleapis.com/v1/projects/your-project-id"
  ++ "/locations/us-central1/publishers/google/models/gemini-test:predict".

(** A deployment whose identity provider grants a token and whose upstream
    answers every POST with the given status and body. *)
Definition answering (status : Z) (text : string) : Deployment :=
  stub VALID_API_KEYS hour_token (Responded (mkUpstream status text)).

(** A deployment whose identity provider fails every round trip. *)
Definition provider_is_down : Deployment :=
  stub VALID_API_KEYS provider_down (Responded (mkUpstream 200 compact_body)).

(** A deployment with a disabled entry next to the shipped ones. *)
Definition with_disabled_key : Deployment :=
  stub (("sk-retired", mkIdentity "Former Client" false) :: VALID_API_KEYS)
       hour_token (Responded (mkUpstream 200 compact_body)).

(** A manager holding a token that expires at 4600. *)
Definition cached : World :=
  mkWorld (Some (mkCredentials (Some "ya29.a0") (Some 4600))) 0 0 0.

Definition bad_json_request : Request :=
  mkRequest (Some "Bearer sk-client-veo-001") "{bad json".

Definition bad_key_request : Request :=
  mkRequest (Some "Bearer sk-bad-key") scenario_body.

(** A shipped key followed by further fields. *)
Definition trailing_header : string := "Bearer sk-client-veo-001 and more".

Fixpoint has_byte (n : nat) (s : string) : bool :=
  match s with
  | String c rest => Json.byte n c || has_byte n rest
  | EmptyString => false
  end.

Definition starts_with_bytes (a b : nat) (s : string) : bool :=
  match s with
  | String x (String y _) => Json.byte a x && Json.byte b y
  | _ => false
  end.

(** [json.loads] on bytes decodes them first.  Bytes without a NUL that do
    not start with a UTF-16 byte order mark (FF FE or FE FF) are decoded as
    UTF-8, in which the byte FF never occurs: the decoding raises
    UnicodeDecodeError, which is not a JSONDecodeError. *)
Definition undecodable (s : string) : bool :=
  has_byte 255 s && negb (has_byte 0 s)
  && negb (starts_with_bytes 255 254 s) && negb (starts_with_bytes 254 255 s).

Definition bytes_loads (s : string) : load_result Json.value :=
  if undecodable s then LoadCrashed "UnicodeDecodeError" else fragment_loads s.

(** The deployment [answering 200 compact_body] with the decoding of the
    bytes in front of the parser. *)
Definition decoding : Deployment :=
  {| payload := Json.value;
     KEY_PATH := "vertex_creds.json";
     PROJECT_ID := "your-project-id";
     REGION := "us-central1";
     API_KEYS := VALID_API_KEYS;
     REFRESH_THRESHOLD := 225;
     utcnow := fun n => 1000 + Z.of_nat n;
     jwt_grant := hour_token;
     client_post := fun _ _ _ _ => Responded (mkUpstream 200 compact_body);
     json_loads := bytes_loads;
     json_dumps := fun v => Some (Json.dumps v) |}.

(** A request of a shipped key whose body is the one byte FF. *)
Definition undecodable_request : Request :=
  mkRequest (Some "Bearer sk-client-veo-001") (String (ascii_of_nat 255) EmptyString).

(** A deployment whose upstream cannot be reached. *)
Definition unreachable_upstream : Deployment :=
  stub VALID_API_KEYS hour_token (RequestFailed "connect timeout").

(** A manager whose token passes its skewed expiry (1226 - 225 = 1001)
    between the first and the second reading of the stub clock. *)
Definition crossing : World :=
  mkWorld (Some (mkCredentials (Some "ya29.old") (Some 1226))) 0 0 0.


(** ** Vocabulary of the statements *)

Fixpoint spaceless (s : string) : bool :=
  match s with
  | EmptyString => true
  | String c rest => negb (Ascii.eqb c " ") && spaceless rest
  end.

(** The caller check as the specification words it, as a relation between
    the Authorization header and the result: the header must read Bearer,
    one space, and the key, nothing else; [MissingAuth] for a header that is
    absent or not of that form, [InvalidKey] for a key that is not in the
    table, [InactiveKey] for a disabled entry, the caller's key otherwise. *)
Inductive authenticates_as_specified (keys : KeyTable)
  : option string -> string + exn -> Prop :=
| Specified_absent :
    authenticates_as_specified keys None
      (inr (HTTPException 401 "Missing or invalid Authorization header"))
| Specified_scheme h :
    String.prefix "Bearer " h = false ->
    authenticates_as_specified keys (Some h)
      (inr (HTTPException 401 "Missing or invalid Authorization header"))
| Specified_unknown key :
    lookup key keys = None ->
    authenticates_as_specified keys (Some ("Bearer " ++ key))
      (inr (HTTPException 401 "Invalid API Key"))
| Specified_inactive key ident :
    lookup key keys = Some ident -> active ident = false ->
    authenticates_as_specified keys (Some ("Bearer " ++ key))
      (inr (HTTPException 403 "API Key is inactive"))
| Specified_identified key ident :
    lookup key keys = Some ident -> active ident = true ->
    authenticates_as_specified keys (Some ("Bearer " ++ key)) (inl key).

(** The caller check with the key read the way the source reads it: a
    header carries the key [key] when it reads Bearer, one space, [key], and
    then ends or goes on after a further space; what follows that space is
    ignored.  Otherwise as above: [MissingAuth], [InvalidKey],
    [InactiveKey], or the caller's key. *)
Inductive authenticates (keys : KeyTable) : option string -> string + exn -> Prop :=
| MissingAuth_absent :
    authenticates keys None
      (inr (HTTPException 401 "Missing or invalid Authorization header"))
| MissingAuth_scheme h :
    String.prefix "Bearer " h = false ->
    authenticates keys (Some h)
      (inr (HTTPException 401 "Missing or invalid Authorization header"))
| InvalidKey key rest :
    spaceless key = true -> rest = "" \/ (exists r, rest = " " ++ r) ->
    lookup key keys = None ->
    authenticates keys (Some ("Bearer " ++ key ++ rest))
      (inr (HTTPException 401 "Invalid API Key"))
| InactiveKey key rest ident :
    spaceless key = true -> rest = "" \/ (exists r, rest = " " ++ r) ->
    lookup key keys = Some ident -> active ident = false ->
    authenticates keys (Some ("Bearer " ++ key ++ rest))
      (inr (HTTPException 403 "API Key is inactive"))
| Identified key rest ident :
    spaceless key = true -> rest = "" \/ (exists r, rest = " " ++ r) ->
    lookup key keys = Some ident -> active ident = true ->
    authenticates keys (Some ("Bearer " ++ key ++ rest)) (inl key).

(** Whether [get_token], called after [n] readings of the clock, refreshes
    credentials [c]: [valid] is false at the reading it makes, or [valid]
    is true and [expired] is true at the reading made after it. *)
Definition stale (D : Deployment) (c : Credentials) (n : nat) : bool :=
  negb (valid_at D c (utcnow D n)) || expired_at D c (utcnow D (S n)).

(** How many readings of the clock that call makes. *)
Definition readings (D : Deployment) (c : Credentials) (n : nat) : nat :=
  match token c, expiry c with
  | Some _, Some _ => if valid_at D c (utcnow D n) then 2 else 1
  | _, _ => 0
  end.

(** The line logged before the refresh, which tells the branch taken. *)
Definition refresh_note (D : Deployment) (c : Credentials) (n : nat) : string :=
  if valid_at D c (utcnow D n) then "GCP token expired, refreshing..."
  else "Refreshing GCP access token...".

(** A clock that never runs backwards. *)
Definition monotone_clock (D : Deployment) : Prop :=
  forall i j : nat, (i <= j)%nat -> utcnow D i <= utcnow D j.

(** The failures to which the route gives a status of its own before the
    forwarding stage: the caller check raises, the parser raises its decode
    error on the body, or [get_token] raises.  (A body on which the parser
    raises anything else is not among them: the route has no status for it.) *)
Inductive fails_before_forward (D : Deployment) (request : Request) (w : World)
  : Z -> Prop :=
| CallerRejected status detail :
    outcome (verify_api_key D request w) = inr (HTTPException status detail) ->
    fails_before_forward D request w status
| BodyMalformed key :
    outcome (verify_api_key D request w) = inl key ->
    json_loads D (raw_body request) = DecodeError ->
    fails_before_forward D request w 400
| TokenUnavailable key data e :
    outcome (verify_api_key D request w) = inl key ->
    json_loads D (raw_body request) = Loaded data ->
    outcome (get_token D w) = inr e ->
    fails_before_forward D request w 500.

(** The order of the stages as section 4.2 of the specification lists them:
    the token is fetched before the target is built. *)
Definition specified_order : list stage :=
  [Authenticate; ParseBody; FetchToken; BuildTarget; Forward; Relay].

Definition no_post {J} (evs : list (event J)) : Prop :=
  forall e, In e evs -> is_post e = false.

Definition no_refresh {J} (evs : list (event J)) : Prop :=
  forall e, In e evs -> is_refresh e = false.

(** ** The caller check *)

Section CallerCheck.

Variable D : Deployment.

Lemma split_first_field (key rest : string) :
  spaceless key = true ->
  rest = "" \/ (exists r, rest = " " ++ r) ->
  exists more, split " " (key ++ rest) = key :: more.
Proof.
  intros Hkey Hrest. induction key as [|c key IH]; simpl in *.
  - destruct Hrest as [-> | [r ->]]; simpl; eauto.
  - apply andb_prop in Hkey as [Hc Hk].
    destruct (Ascii.eqb c " "); [discriminate|].
    destruct (IH Hk) as [more ->]. eauto.
Qed.

Lemma prefix_cons (a : ascii) (s1 s2 : string) :
  String.prefix (String a s1) s2 = true ->
  exists s2', s2 = String a s2' /\ String.prefix s1 s2' = true.
Proof.
  destruct s2 as [|b s2]; simpl; [discriminate|].
  destruct (ascii_dec a b) as [->|]; [eauto|discriminate].
Qed.

(** Every header that starts with the scheme carries exactly one key. *)
Lemma bearer_header_shape (h : string) :
  String.prefix "Bearer " h = true ->
  exists key rest, h = "Bearer " ++ key ++ rest /\ spaceless key = true /\
                   (rest = "" \/ (exists r, rest = " " ++ r)).
Proof.
  intros Hp.
  assert (Hcut : forall s, exists key rest, s = key ++ rest /\ spaceless key = true /\
                                       (rest = "" \/ (exists r, rest = " " ++ r))).
  { induction s as [|c s IH].
    - exists "", "". simpl. auto.
    - destruct (Ascii.eqb c " ") eqn:E.
      + apply Ascii.eqb_eq in E. subst c. exists "", (String " " s). simpl.
        repeat split; eauto.
      + destruct IH as (key & rest & -> & Hk & Hr).
        exists (String c key), rest. simpl. rewrite E. auto. }
  do 7 (apply prefix_cons in Hp; destruct Hp as (? & -> & Hp)).
  match goal with |- context [String "B" (String _ (String _ (String _ (String _ (String _ (String _ ?t))))))] =>
    destruct (Hcut t) as (key & rest & -> & Hk & Hr)
  end.
  exists key, rest. auto.
Qed.

Lemma verify_api_key_world (request : Request) (w : World) :
  after (verify_api_key D request w) = w.
Proof.
  unfold verify_api_key.
  destruct (authorization request) as [h|]; [|reflexivity].
  destruct (_ || _); [reflexivity|].
  destruct (nth_error _ 1); [|reflexivity].
  destruct (lookup _ _) as [ident|]; [|reflexivity].
  destruct (negb _); reflexivity.
Qed.

Lemma verify_api_key_logs (request : Request) (w : World) (e : event (payload D)) :
  In e (emitted (verify_api_key D request w)) -> exists msg, e = Log WARNING msg.
Proof.
  unfold verify_api_key.
  destruct (authorization request) as [h|]; [|intros []].
  destruct (_ || _); [intros []|].
  destruct (nth_error _ 1); [|intros []].
  destruct (lookup _ _) as [ident|].
  - destruct (negb _); intros [].
  - simpl. intros [<-|[]]. eauto.
Qed.

Lemma caller_check_refines (request : Request) (w : World) :
  authenticates (API_KEYS D) (authorization request)
                (outcome (verify_api_key D request w)).
Proof.
  unfold verify_api_key.
  destruct (authorization request) as [h|]; [|constructor].
  destruct (String.prefix "Bearer " h) eqn:Hp.
  - destruct (bearer_header_shape h Hp) as (key & rest & -> & Hk & Hr).
    destruct (split_first_field key rest Hk Hr) as [more Hs].
    replace (String.eqb ("Bearer " ++ key ++ rest) "") with false by reflexivity.
    replace (split " " ("Bearer " ++ key ++ rest))
      with ("Bearer" :: split " " (key ++ rest)) by reflexivity.
    rewrite Hs. simpl.
    destruct (lookup key (API_KEYS D)) as [ident|] eqn:Hl.
    + destruct (active ident) eqn:Ha; simpl.
      * eapply Identified; eauto.
      * eapply InactiveKey; eauto.
    + simpl. eapply InvalidKey; eauto.
  - rewrite orb_true_r. simpl. now constructor.
Qed.

Lemma shipped_entries_active (key : string) (ident : ClientIdentity) :
  lookup key VALID_API_KEYS = Some ident -> active ident = true.
Proof.
  unfold VALID_API_KEYS. simpl. intros Hl.
  repeat match type of Hl with
         | (if ?b then _ else _) = _ => destruct b
         end; inversion Hl; reflexivity.
Qed.

(** C6, as amended. For every request, [verify_api_key] answers as the
    caller check is specified, with the key read as the field that follows
    the scheme: a header that is absent or does not start
    with the Bearer scheme raises 401 (MissingAuth); a key that is not in
    the identity table raises 401 (InvalidKey); a key whose entry has
    active = false raises 403 (InactiveKey); otherwise the caller's key is
    returned.  The key is the field between the first space and the next;
    the check changes nothing in the process state. *)
Theorem verify_api_key_authenticates (request : Request) (w : World) :
  authenticates (API_KEYS D) (authorization request)
                (outcome (verify_api_key D request w))
  /\ after (verify_api_key D request w) = w.
Proof.
  split; [apply caller_check_refines | apply verify_api_key_world].
Qed.

(** C10. With the table shipped in main.py as the identity table, no
    request reaches the 403 branch: [verify_api_key] raises 401 or returns
    a key of the table. *)
Theorem shipped_table_never_403 (request : Request) (w : World) :
  API_KEYS D = VALID_API_KEYS ->
  let r := verify_api_key D request w in
  (exists detail, outcome r = inr (HTTPException 401 detail)) \/
  (exists key ident, outcome r = inl key /\ lookup key VALID_API_KEYS = Some ident).
Proof.
  intros Hkeys r. subst r.
  pose proof (caller_check_refines request w) as H. rewrite Hkeys in H.
  inversion H; subst.
  - left. eauto.
  - left. eauto.
  - left. eauto.
  - match goal with
    | Hl : lookup _ VALID_API_KEYS = Some ?i, Ha : active ?i = false |- _ =>
        apply shipped_entries_active in Hl; congruence
    end.
  - right. eauto.
Qed.

Lemma take_is_prefix (n : nat) (s : string) :
  (String.length (take n s) <= n)%nat /\ exists rest, s = take n s ++ rest.
Proof.
  unfold take. revert s. induction n as [|n IH]; intros s.
  - destruct s; simpl; split; eauto.
  - destruct s as [|c s]; simpl.
    + split; [lia | exists ""; reflexivity].
    + destruct (IH s) as [Hlen [rest Hrest]]. split; [lia|].
      exists rest. congruence.
Qed.

Lemma take_length (n : nat) (s : string) :
  String.length (take n s) = Nat.min n (String.length s).
Proof.
  unfold take. revert s. induction n as [|n IH]; intros s.
  - destruct s; reflexivity.
  - destruct s as [|c s]; simpl; [reflexivity|]. rewrite IH. reflexivity.
Qed.

(** X1.  The caller check writes to the log only when it turns away an
    unknown key, and then the line shows of the key the request carries (the
    field after the scheme) its first eight characters, or all of it when it
    is shorter, followed by three stars, and nothing else of it. *)
Theorem verify_api_key_log_redacts (request : Request) (w : World) :
  let r := verify_api_key D request w in
  emitted r = [] \/
  exists key more shown rest,
    authorization request = Some ("Bearer " ++ key ++ more) /\
    spaceless key = true /\ (more = "" \/ (exists m, more = " " ++ m)) /\
    key = shown ++ rest /\
    String.length shown = Nat.min 8 (String.length key) /\
    emitted r = [Log WARNING ("Unauthorized access attempt with key: " ++ shown ++ "***")]
    /\ lookup key (API_KEYS D) = None
    /\ outcome r = inr (HTTPException 401 "Invalid API Key").
Proof.
  simpl. unfold verify_api_key.
  destruct (authorization request) as [h|]; [|left; reflexivity].
  destruct (String.prefix "Bearer " h) eqn:Hp.
  - destruct (bearer_header_shape h Hp) as (key & more & -> & Hk & Hm).
    destruct (split_first_field key more Hk Hm) as [fields Hs].
    replace (String.eqb ("Bearer " ++ key ++ more) "") with false by reflexivity.
    replace (split " " ("Bearer " ++ key ++ more))
      with ("Bearer" :: split " " (key ++ more)) by reflexivity.
    rewrite Hs. simpl.
    destruct (lookup key (API_KEYS D)) as [ident|] eqn:Hl.
    + destruct (negb _); left; reflexivity.
    + right. destruct (take_is_prefix 8 key) as [_ [rest Hrest]].
      exists key, more, (take 8 key), rest.
      repeat split; auto. apply take_length.
  - rewrite orb_true_r. left. reflexivity.
Qed.


End CallerCheck.

(** ** The credential manager *)

Section Manager.

Variable D : Deployment.

Lemma get_token_degraded (w : World) :
  creds w = None ->
  get_token D w = mkRun (inr (RuntimeError "GCP Credentials not initialized")) w [].
Proof.
  intros H. unfold get_token, bind, read_creds, raise. simpl. rewrite H. reflexivity.
Qed.

(** What one call of [get_token] does on held credentials, case by case. *)
Lemma get_token_run (w : World) (c : Credentials) :
  creds w = Some c ->
  let n := clock_reads w in
  let ticks := (n + readings D c n)%nat in
  get_token D w =
    if stale D c n then
      match jwt_grant D (refreshes w) with
      | Some (t, e) =>
          mkRun (inl (Some t))
                (mkWorld (Some (mkCredentials (Some t) (Some e))) ticks
                         (S (refreshes w)) (posts w))
                [Log INFO (refresh_note D c n); Refresh (Some (t, e))]
      | None =>
          mkRun (inr RefreshError)
                (mkWorld (Some c) ticks (S (refreshes w)) (posts w))
                [Log INFO (refresh_note D c n); Refresh None]
      end
    else mkRun (inl (token c)) (mkWorld (Some c) ticks (refreshes w) (posts w)) [].
Proof.
  intros Hc n ticks. subst n ticks.
  destruct w as [held n k p]. simpl in Hc. subst held.
  destruct c as [tok ex].
  unfold get_token, stale, readings, refresh_note, valid_at, expired_at.
  unfold bind, read_creds, creds_valid, creds_expired, creds_refresh, read_clock,
    logger, emit, ret, raise, expired_at. simpl.
  destruct tok as [t|]; simpl.
  - destruct ex as [e|]; simpl.
    + destruct (e - REFRESH_THRESHOLD D <=? utcnow D n)%Z; simpl.
      * destruct (jwt_grant D k) as [[t' e']|]; simpl;
          rewrite ?Nat.add_1_r; reflexivity.
      * destruct (e - REFRESH_THRESHOLD D <=? utcnow D (S n))%Z; simpl.
        -- destruct (jwt_grant D k) as [[t' e']|]; simpl;
             rewrite ?Nat.add_succ_r, ?Nat.add_0_r; reflexivity.
        -- rewrite ?Nat.add_succ_r, ?Nat.add_0_r. reflexivity.
    + rewrite Nat.add_0_r. reflexivity.
  - destruct (jwt_grant D k) as [[t' e']|]; simpl; rewrite Nat.add_0_r; reflexivity.
Qed.

Lemma stale_words (c : Credentials) (n : nat) :
  stale D c n = true <->
  token c = None \/ expired_at D c (utcnow D n) = true
  \/ expired_at D c (utcnow D (S n)) = true.
Proof.
  unfold stale, valid_at. destruct (token c) as [t|]; simpl.
  - rewrite negb_involutive, orb_true_iff. split.
    + intros [H|H]; auto.
    + intros [H|[H|H]]; [discriminate|auto|auto].
  - split; auto.
Qed.

(** Once stale, always stale for a clock that does not run backwards. *)
Lemma stale_persists (c : Credentials) (n m : nat) :
  monotone_clock D ->
  stale D c n = true -> (n + readings D c n <= m)%nat -> stale D c m = true.
Proof.
  intros Hmono Hs Hm. apply stale_words. apply stale_words in Hs.
  unfold readings, valid_at, expired_at in *.
  destruct (token c) as [t|]; [|auto].
  destruct (expiry c) as [e|].
  - right. left. apply Z.leb_le.
    destruct (e - REFRESH_THRESHOLD D <=? utcnow D n)%Z eqn:E1; simpl in Hm.
    + apply Z.leb_le in E1. pose proof (Hmono n m ltac:(lia)). lia.
    + destruct Hs as [H|[H|H]]; try discriminate.
      apply Z.leb_le in H. pose proof (Hmono (S n) m ltac:(lia)). lia.
  - destruct Hs as [H|[H|H]]; discriminate.
Qed.

(** C5. When the held credentials carry a token and are not expired at the
    readings the call makes (they are valid and the expiry lies ahead),
    [get_token] returns that token and makes no round trip to the identity
    provider and changes neither the credentials nor anything it emits; and
    a refresh round trip is made exactly when the token is missing or the
    credentials report it expired. *)
Theorem get_token_reuses_cached (w : World) (c : Credentials) :
  creds w = Some c ->
  let n := clock_reads w in
  let r := get_token D w in
  (forall tok, token c = Some tok ->
     expired_at D c (utcnow D n) = false ->
     expired_at D c (utcnow D (S n)) = false ->
     outcome r = inl (Some tok) /\ creds (after r) = Some c /\
     refreshes (after r) = refreshes w /\ emitted r = [])
  /\ (token c = None \/ expired_at D c (utcnow D n) = true
      \/ expired_at D c (utcnow D (S n)) = true
      <-> refreshes (after r) = S (refreshes w))
  /\ (refreshes (after r) = S (refreshes w)
      <-> In (Refresh (jwt_grant D (refreshes w))) (emitted r)).
Proof.
  intros Hc n r. subst r. rewrite (get_token_run w c Hc). fold n.
  rewrite <- stale_words.
  destruct (stale D c n) eqn:Hs.
  - split; [|split].
    + intros tok Ht H1 H2.
      assert (stale D c n = true -> False); [|tauto].
      rewrite stale_words. rewrite Ht, H1, H2. intros [?|[?|?]]; discriminate.
    + destruct (jwt_grant D (refreshes w)) as [[t e]|]; simpl; tauto.
    + destruct (jwt_grant D (refreshes w)) as [[t e]|]; simpl; tauto.
  - simpl. split; [|split].
    + intros tok Ht _ _. rewrite Ht. auto.
    + split; [discriminate|]. intros H. exfalso. lia.
    + split; [intros H; exfalso; lia | intros []].
Qed.

(** C7. When [get_token] attempts a refresh and the round trip fails, the
    call raises the refresh error, the credentials held before the call are
    still held afterwards, they are still in need of a refresh at every
    later call (for a clock that does not run backwards), and the next call
    of [get_token] makes a new round trip. *)
Theorem failed_refresh_is_retried (w : World) (c : Credentials) :
  monotone_clock D ->
  creds w = Some c ->
  stale D c (clock_reads w) = true ->
  jwt_grant D (refreshes w) = None ->
  let r := get_token D w in
  outcome r = inr RefreshError /\
  creds (after r) = Some c /\
  refreshes (after r) = S (refreshes w) /\
  (forall m, (clock_reads (after r) <= m)%nat -> stale D c m = true) /\
  let r' := get_token D (after r) in
  In (Refresh (jwt_grant D (S (refreshes w)))) (emitted r') /\
  refreshes (after r') = S (S (refreshes w)) /\
  (forall t e, jwt_grant D (S (refreshes w)) = Some (t, e) ->
     outcome r' = inl (Some t) /\
     creds (after r') = Some (mkCredentials (Some t) (Some e))) /\
  (jwt_grant D (S (refreshes w)) = None ->
     outcome r' = inr RefreshError /\ creds (after r') = Some c).
Proof.
  intros Hmono Hc Hs Hfail r.
  assert (Hr : r = mkRun (inr RefreshError)
                 (mkWorld (Some c) (clock_reads w + readings D c (clock_reads w))
                          (S (refreshes w)) (posts w))
                 [Log INFO (refresh_note D c (clock_reads w)); Refresh None]).
  { subst r. rewrite (get_token_run w c Hc). simpl. rewrite Hs, Hfail. reflexivity. }
  rewrite Hr. cbn [outcome after emitted creds refreshes clock_reads].
  assert (Hlater : forall m, (clock_reads w + readings D c (clock_reads w) <= m)%nat ->
                        stale D c m = true).
  { intros m Hm. eapply stale_persists; eauto. }
  set (w1 := mkWorld (Some c) (clock_reads w + readings D c (clock_reads w))
                     (S (refreshes w)) (posts w)).
  pose proof (get_token_run w1 c eq_refl) as G.
  cbn [w1 creds refreshes clock_reads posts] in G.
  rewrite (Hlater _ (Nat.le_refl _)) in G. fold w1 in G. rewrite G. clear G.
  repeat split; auto.
  - destruct (jwt_grant D (S (refreshes w))) as [[t e]|]; simpl; auto.
  - destruct (jwt_grant D (S (refreshes w))) as [[t e]|]; reflexivity.
  - rewrite H. reflexivity.
  - rewrite H. reflexivity.
  - rewrite H. reflexivity.
  - rewrite H. reflexivity.
Qed.

(** X2.  What [get_token] returns is a token: the value is never absent, and it
    is the token the manager holds after the call. *)
Theorem get_token_returns_held_token (w : World) (x : option string) :
  outcome (get_token D w) = inl x ->
  exists c t, creds (after (get_token D w)) = Some c /\ token c = Some t /\ x = Some t.
Proof.
  destruct (creds w) as [c|] eqn:Hc.
  - rewrite (get_token_run w c Hc).
    destruct (stale D c (clock_reads w)) eqn:Hs.
    + destruct (jwt_grant D (refreshes w)) as [[t e]|]; simpl; intros H;
        inversion H; subst.
      exists (mkCredentials (Some t) (Some e)), t. auto.
    + simpl. intros H. inversion H; subst.
      unfold stale, valid_at in Hs. destruct (token c) as [t|] eqn:Ht.
      * exists c, t. auto.
      * discriminate Hs.
  - rewrite (get_token_degraded w Hc). discriminate.
Qed.

(** X3.  A manager that holds credentials holds credentials after every call of
    [get_token], whether the call returns or raises; the only change a call
    can make to them is to store the grant of a successful round trip. *)
Theorem get_token_keeps_manager_ready (w : World) (c : Credentials) :
  creds w = Some c ->
  creds (after (get_token D w)) = Some c \/
  exists t e, jwt_grant D (refreshes w) = Some (t, e) /\
              creds (after (get_token D w)) = Some (mkCredentials (Some t) (Some e)) /\
              outcome (get_token D w) = inl (Some t).
Proof.
  intros Hc. rewrite (get_token_run w c Hc).
  destruct (stale D c (clock_reads w)).
  - destruct (jwt_grant D (refreshes w)) as [[t e]|]; simpl; eauto 6.
  - simpl. auto.
Qed.

(** X4.  Start-up with the key file in place: the manager starts, logs that it
    loads the file, and holds credentials without a token, so the first call
    of [get_token] always makes a round trip to the identity provider,
    without reading the clock, and returns the granted token or raises. *)
Theorem first_get_token_asks_provider :
  let started := GoogleAuthManager_init D KeyLoaded boot in
  outcome started = inl tt /\
  emitted started = [Log INFO ("Loading GCP credentials from " ++ KEY_PATH D)] /\
  let r := get_token D (after started) in
  In (Refresh (jwt_grant D 0)) (emitted r) /\
  clock_reads (after r) = 0%nat /\ refreshes (after r) = 1%nat /\
  outcome r = match jwt_grant D 0 with
              | Some (t, _) => inl (Some t)
              | None => inr RefreshError
              end.
Proof.
  simpl. split; [reflexivity|]. split; [reflexivity|].
  rewrite (get_token_run (mkWorld (Some (mkCredentials None None)) 0 0 0)
             (mkCredentials None None) eq_refl). simpl.
  destruct (jwt_grant D 0) as [[t e]|]; simpl; auto.
Qed.

(** X5.  The second test of [get_token] (the expired branch) is taken only when
    the clock has moved across the skewed expiry between the reading of
    [valid] and the reading of [expired]; with two equal readings it is dead. *)
Theorem expired_branch_needs_clock_advance (w : World) :
  In (Log INFO "GCP token expired, refreshing...") (emitted (get_token D w)) ->
  exists c e,
    creds w = Some c /\ expiry c = Some e /\
    utcnow D (clock_reads w) < e - REFRESH_THRESHOLD D <= utcnow D (S (clock_reads w)).
Proof.
  destruct (creds w) as [c|] eqn:Hc.
  - rewrite (get_token_run w c Hc).
    destruct (stale D c (clock_reads w)) eqn:Hs.
    + intros Hin.
      assert (Hnote : refresh_note D c (clock_reads w) = "GCP token expired, refreshing...").
      { destruct (jwt_grant D (refreshes w)) as [[t e]|]; simpl in Hin;
          destruct Hin as [H|[H|[]]]; try discriminate H; inversion H; auto. }
      unfold refresh_note in Hnote.
      destruct (valid_at D c (utcnow D (clock_reads w))) eqn:Hv; [|discriminate Hnote].
      unfold stale in Hs. rewrite Hv in Hs. simpl in Hs.
      unfold valid_at, expired_at in *.
      destruct (token c); [|discriminate Hv].
      destruct (expiry c) as [e|] eqn:He; [|discriminate Hs].
      exists c, e. apply negb_true_iff in Hv. apply Z.leb_gt in Hv.
      apply Z.leb_le in Hs.
      split; [reflexivity|]. split; [exact He|]. split; assumption.
    + intros [].
  - rewrite (get_token_degraded w Hc). intros [].
Qed.


End Manager.

(** ** The request pipeline *)

Section Pipeline.

Variable D : Deployment.

Ltac crunch :=
  cbn -[get_token verify_api_key google_url bearer str_Z String.append].

(** Takes the run of the route apart, one branch per way it can end. *)
Ltac walk :=
  unfold proxy_vertex_predict, bind, try_except, emit, logger, ret, raise,
    parse_json, post, render;
  crunch;
  repeat (lazymatch goal with
          | |- context [match verify_api_key D ?r ?w with _ => _ end] =>
              let V := fresh "V" in
              destruct (verify_api_key D r w) as [[?key | ?e] ?wv ?ev] eqn:V
          | |- context [match json_loads D ?b with _ => _ end] =>
              let L := fresh "L" in
              destruct (json_loads D b) as [?data | | ?why] eqn:L
          | |- context [match lookup ?k ?t with _ => _ end] =>
              let K := fresh "K" in
              destruct (lookup k t) as [?ident | ] eqn:K
          | |- context [match get_token D ?w with _ => _ end] =>
              let T := fresh "T" in
              destruct (get_token D w) as [[?tok | ?e] ?wt ?et] eqn:T
          | |- context [match client_post D ?n ?u ?d ?a with _ => _ end] =>
              let P := fresh "P" in
              destruct (client_post D n u d a) as [?up | ?msg | ?what] eqn:P
          | |- context [if (400 <=? ?s)%Z then _ else _] =>
              destruct (400 <=? s)%Z
          | |- context [match json_dumps D ?v with _ => _ end] =>
              let R := fresh "R" in
              destruct (json_dumps D v) as [?text | ] eqn:R
          end; crunch).

Ltac split_in H :=
  simpl in H;
  lazymatch type of H with
  | _ \/ _ => destruct H as [H | H]; split_in H
  | In _ (_ ++ _) => apply in_app_or in H; split_in H
  | False => destruct H
  | _ => idtac
  end.

Lemma stages_of_app (a b : list (event (payload D))) :
  stages_of (a ++ b) = (stages_of a ++ stages_of b)%list.
Proof.
  induction a as [|e a IH]; simpl; [reflexivity|].
  destruct e; simpl; rewrite IH; reflexivity.
Qed.

(** A caller that is let in: nothing was logged and the key is an active
    entry of the table. *)
Lemma verify_api_key_ok (request : Request) (w wv : World) (key : string)
  (ev : list (event (payload D))) :
  verify_api_key D request w = mkRun (inl key) wv ev ->
  wv = w /\ ev = [] /\
  exists ident, lookup key (API_KEYS D) = Some ident /\ active ident = true.
Proof.
  unfold verify_api_key.
  destruct (authorization request) as [h|]; [|discriminate].
  destruct (_ || _); [discriminate|].
  destruct (nth_error _ 1) as [k|]; [|discriminate].
  destruct (lookup k (API_KEYS D)) as [ident|] eqn:Hl; [|discriminate].
  destruct (active ident) eqn:Ha; [|discriminate].
  simpl. unfold ret. intros H. inversion H; subst. eauto.
Qed.

(** A caller that is turned away: 401 or 403, and nothing but a warning. *)
Lemma verify_api_key_err (request : Request) (w wv : World) (e : exn)
  (ev : list (event (payload D))) :
  verify_api_key D request w = mkRun (inr e) wv ev ->
  wv = w /\ stages_of ev = [] /\ no_post ev /\ no_refresh ev /\
  exists status detail,
    e = HTTPException status detail /\ (status = 401 \/ status = 403).
Proof.
  intros H.
  pose proof (verify_api_key_world D request w) as Hw.
  pose proof (verify_api_key_logs D request w) as Hl.
  pose proof (caller_check_refines D request w) as Ha.
  rewrite H in Hw, Hl, Ha. simpl in *.
  split; [auto|].
  split.
  { clear - Hl. induction ev as [|x ev IH]; [reflexivity|].
    destruct (Hl x (or_introl eq_refl)) as [msg ->]. simpl.
    apply IH. intros y Hy. apply Hl. now right. }
  split; [intros x Hx; destruct (Hl x Hx) as [msg ->]; reflexivity|].
  split; [intros x Hx; destruct (Hl x Hx) as [msg ->]; reflexivity|].
  inversion Ha; subst; eauto 6.
Qed.

(** [get_token] never posts, never enters a stage, and leaves a degraded
    manager degraded. *)
Lemma get_token_frame (w : World) :
  let r := get_token D w in
  posts (after r) = posts w /\ no_post (emitted r) /\ stages_of (emitted r) = [] /\
  (creds w = None -> creds (after r) = None).
Proof.
  simpl. destruct (creds w) as [c|] eqn:Hc.
  - rewrite (get_token_run D w c Hc).
    destruct (stale D c (clock_reads w)).
    + destruct (jwt_grant D (refreshes w)) as [[t e]|]; simpl;
        (repeat split; try discriminate);
        intros x Hx; split_in Hx; subst; reflexivity.
    + simpl. repeat split; try discriminate. intros x [].
  - rewrite (get_token_degraded D w Hc). simpl. repeat split; auto. intros x [].
Qed.

Lemma get_token_frame_eq (w wt : World) (o : option string + exn)
  (et : list (event (payload D))) :
  get_token D w = mkRun o wt et ->
  posts wt = posts w /\ no_post et /\ stages_of et = [] /\
  (creds w = None -> creds wt = None).
Proof.
  intros H. pose proof (get_token_frame w) as F. rewrite H in F. exact F.
Qed.

(** What the relay step makes of an upstream answer. *)
Lemma relay_of_answer (model_name : string) (request : Request) (w : World)
  (url auth : string) (data : payload D) (up : UpstreamResponse) :
  let r := proxy_vertex_predict D model_name request w in
  In (Post url data auth (Responded up)) (emitted r) ->
  outcome r =
    match json_loads D (upstream_body up) with
    | Loaded v =>
        match json_dumps D v with
        | Some text => inl (mkResponse (upstream_status up) text)
        | None => inr (Uncaught "ValueError")
        end
    | DecodeError => inr JSONDecodeError
    | LoadCrashed why => inr (Uncaught ("response.json: " ++ why))
    end.
Proof.
  simpl.
  set (expected := match json_loads D (upstream_body up) with
                   | Loaded v => _ | DecodeError => _ | LoadCrashed why => _ end).
  walk; intros H.
  all: try match goal with
           | V : verify_api_key D _ _ = mkRun (inl _) _ _ |- _ =>
               apply verify_api_key_ok in V; destruct V as (-> & -> & _)
           | V : verify_api_key D _ _ = mkRun (inr _) _ _ |- _ =>
               apply verify_api_key_err in V; destruct V as (-> & _ & Hnp & _)
           end.
  all: try match goal with
           | T : get_token D _ = mkRun _ _ _ |- _ =>
               apply get_token_frame_eq in T; destruct T as (_ & Hnt & _)
           end.
  all: split_in H.
  all: try discriminate H.
  all: try match goal with
           | Hn : no_post ?l, Hi : In _ ?l |- _ =>
               apply Hn in Hi; discriminate Hi
           end.
  all: inversion H; subst; subst expected.
  all: repeat match goal with
              | L : json_loads D _ = _ |- _ => first [rewrite L | idtac]; clear L
              | R : json_dumps D _ = _ |- _ => first [rewrite R | idtac]; clear R
              end.
  all: reflexivity.
Qed.

(** C1, as amended.  For every answer the upstream gives to the forwarded
    request, of any status, whose body the JSON codec accepts and can write
    back, the route returns to the client the same status code and, as body,
    the parsed value written back in the codec's compact form. *)
Theorem upstream_answer_relayed (model_name : string) (request : Request) (w : World)
  (url auth : string) (data v : payload D) (up : UpstreamResponse) (text : string) :
  let r := proxy_vertex_predict D model_name request w in
  In (Post url data auth (Responded up)) (emitted r) ->
  json_loads D (upstream_body up) = Loaded v ->
  json_dumps D v = Some text ->
  outcome r = inl (mkResponse (upstream_status up) text).
Proof.
  intros r Hin Hl Hd. subst r.
  rewrite (relay_of_answer _ _ _ _ _ _ _ Hin), Hl, Hd. reflexivity.
Qed.

(** C9.  The relay step parses the body of the upstream answer and writes
    the parsed value back; so for an upstream answer, of any status, whose
    body is not JSON, the route returns no response at all: the decode error
    of the parse leaves the route unhandled, neither as a response with the
    upstream's status nor as one of the mapped HTTP errors. *)
Theorem non_json_answer_unhandled (model_name : string) (request : Request) (w : World)
  (url auth : string) (data : payload D) (up : UpstreamResponse) :
  let r := proxy_vertex_predict D model_name request w in
  In (Post url data auth (Responded up)) (emitted r) ->
  json_loads D (upstream_body up) = DecodeError ->
  outcome r = inr JSONDecodeError /\
  (forall resp, outcome r <> inl resp) /\
  (forall status detail, outcome r <> inr (HTTPException status detail)).
Proof.
  intros r Hin Hl. subst r.
  rewrite (relay_of_answer _ _ _ _ _ _ _ Hin), Hl.
  repeat split; intros; discriminate.
Qed.

(** X18.  A request to which the route gives a status of its own before
    the forwarding stage -- the caller check raises, the parser raises its
    decode error on the body, or [get_token] raises -- ends with that status
    (401 or 403, 400, 500) and no POST is sent upstream; when it is the
    caller check that raises, the token is not fetched either: the process
    state is untouched and the token stage is never entered. *)
Theorem failure_before_forward (model_name : string) (request : Request) (w : World)
  (status : Z) :
  fails_before_forward D request w status ->
  let r := proxy_vertex_predict D model_name request w in
  (exists detail, outcome r = inr (HTTPException status detail)) /\
  In status [401; 403; 400; 500] /\
  posts (after r) = posts w /\
  no_post (emitted r) /\
  ~ In Forward (stages_of (emitted r)) /\
  (forall e, outcome (verify_api_key D request w) = inr e ->
     after r = w /\ no_refresh (emitted r) /\
     ~ In FetchToken (stages_of (emitted r))).
Proof.
  intros Hfail. simpl. revert Hfail. walk; intros Hfail.
  all: inversion Hfail; subst; clear Hfail.
  all: repeat match goal with
              | V : verify_api_key D ?r ?w = _, H : context [verify_api_key D ?r ?w] |- _ =>
                  lazymatch H with V => fail | _ => rewrite V in H; cbn [outcome] in H end
              end.
  all: try discriminate.
  all: try match goal with
           | V : verify_api_key D _ _ = mkRun (inl _) _ _ |- _ =>
               apply verify_api_key_ok in V;
               destruct V as (-> & -> & ident' & Hk & _)
           | V : verify_api_key D _ _ = mkRun (inr _) _ _ |- _ =>
               apply verify_api_key_err in V;
               destruct V as (-> & Hst & Hnp & Hnr & s & d & -> & Hs)
           end.
  all: repeat match goal with
              | T : get_token D ?w = _, H : context [get_token D ?w] |- _ =>
                  lazymatch H with T => fail | _ => rewrite T in H; cbn [outcome] in H end
              end.
  all: try discriminate.
  all: try congruence.
  all: try match goal with
           | T : get_token D _ = mkRun _ _ _ |- _ =>
               pose proof (get_token_frame_eq _ _ _ _ T) as (Hp & Hnt & Hstt & _)
           end.
  all: try match goal with
           | H : inr _ = inr (HTTPException _ _) |- _ => inversion H; subst; clear H
           end.
  all: rewrite ?stages_of_app; cbn [stages_of];
    rewrite ?stages_of_app, ?Hstt, ?Hst; cbn [stages_of app].
  all: try destruct Hs as [-> | ->].
  all: repeat split; eauto.
  all: try solve [ simpl; auto 6
                 | discriminate
                 | intros x Hx; split_in Hx; subst; auto
                 | intros Hx; split_in Hx; discriminate ].
Qed.

(** A degraded manager stays degraded through a request, which is answered
    without any POST and never with a response. *)
Lemma proxy_degraded (model_name : string) (request : Request) (w : World) :
  creds w = None ->
  let r := proxy_vertex_predict D model_name request w in
  creds (after r) = None /\ posts (after r) = posts w /\ no_post (emitted r) /\
  (forall key data,
     outcome (verify_api_key D request w) = inl key ->
     json_loads D (raw_body request) = Loaded data ->
     outcome r = inr (HTTPException 500 "Internal Server Error: GCP Auth Failed")).
Proof.
  intros Hc. simpl. walk.
  all: try match goal with
           | V : verify_api_key D _ _ = mkRun (inl _) _ _ |- _ =>
               apply verify_api_key_ok in V;
               destruct V as (-> & -> & ident' & Hk & _)
           | V : verify_api_key D _ _ = mkRun (inr _) _ _ |- _ =>
               apply verify_api_key_err in V;
               destruct V as (-> & Hst & Hnp & Hnr & s & d & -> & Hs)
           end.
  all: try match goal with
           | T : get_token D _ = mkRun _ _ _ |- _ =>
               rewrite (get_token_degraded D _ Hc) in T; inversion T; subst; clear T
           end.
  all: try congruence.
  all: repeat split; auto.
  all: try solve [ discriminate
                 | intros x Hx; split_in Hx; subst; auto
                 | intros; congruence ].
Qed.

Lemma serve_degraded (requests : list (string * Request)) (w : World) :
  creds w = None ->
  creds (serve D requests w) = None /\ posts (serve D requests w) = posts w.
Proof.
  revert w. induction requests as [|[model_name request] later IH]; intros w Hc.
  - auto.
  - simpl. destruct (proxy_degraded model_name request w Hc) as (Hc' & Hp & _).
    destruct (IH _ Hc') as [IHc IHp]. split; [exact IHc | congruence].
Qed.

(** C4.  When the key file is absent at start-up, the manager starts
    without raising, logs one warning and holds no credentials; after any
    requests served since, [get_token] still raises the error of
    uninitialised credentials and changes nothing; and a request from an
    accepted caller with a JSON body is answered 500, the process having
    sent no POST upstream, then or before. *)
Theorem degraded_manager_answers_500 (requests : list (string * Request))
  (model_name : string) (request : Request) (key : string) (data : payload D) :
  let started := GoogleAuthManager_init D KeyAbsent boot in
  let w := serve D requests (after started) in
  outcome (verify_api_key D request w) = inl key ->
  json_loads D (raw_body request) = Loaded data ->
  (outcome started = inl tt /\ creds (after started) = None /\
   exists msg, emitted started = [Log WARNING msg]) /\
  get_token D w = mkRun (inr (RuntimeError "GCP Credentials not initialized")) w [] /\
  let r := proxy_vertex_predict D model_name request w in
  outcome r = inr (HTTPException 500 "Internal Server Error: GCP Auth Failed") /\
  no_post (emitted r) /\ posts (after r) = 0%nat.
Proof.
  intros started w Hkey Hbody.
  assert (Hs : creds (after started) = None) by reflexivity.
  destruct (serve_degraded requests _ Hs) as [Hc Hp]. fold w in Hc, Hp.
  split; [|split].
  - repeat split. eexists. reflexivity.
  - apply get_token_degraded. exact Hc.
  - destruct (proxy_degraded model_name request w Hc) as (_ & Hp' & Hn & H500).
    repeat split; eauto. rewrite Hp', Hp. reflexivity.
Qed.

(** C8, as amended.  The route enters its stages in the order of the source:
    authenticate, parse the body, build the target, fetch the token, forward,
    relay; the stages a run entered are an initial part of that list, a run
    that returns a response entered all six, and a failure ends the run in
    its stage: a run answered 401 or 403 entered only the first stage, 400
    the first two, 500 the first four, 502 the first five. *)
Theorem stages_in_source_order (model_name : string) (request : Request) (w : World) :
  let r := proxy_vertex_predict D model_name request w in
  let entered := stages_of (emitted r) in
  (exists n, (1 <= n)%nat /\ entered = firstn n pipeline) /\
  match outcome r with
  | inl _ => entered = pipeline
  | inr (HTTPException status _) =>
      ((status = 401 \/ status = 403) /\ entered = firstn 1 pipeline) \/
      (status = 400 /\ entered = firstn 2 pipeline) \/
      (status = 500 /\ entered = firstn 4 pipeline) \/
      (status = 502 /\ entered = firstn 5 pipeline)
  | inr _ => True
  end.
Proof.
  simpl. walk.
  all: try match goal with
           | V : verify_api_key D _ _ = mkRun (inl _) _ _ |- _ =>
               apply verify_api_key_ok in V;
               destruct V as (-> & -> & ident' & Hk & _)
           | V : verify_api_key D _ _ = mkRun (inr _) _ _ |- _ =>
               apply verify_api_key_err in V;
               destruct V as (-> & Hst & Hnp & Hnr & s & d & -> & Hs)
           end.
  all: try match goal with
           | T : get_token D _ = mkRun _ _ _ |- _ =>
               pose proof (get_token_frame_eq _ _ _ _ T) as (Hp & Hnt & Hstt & _)
           end.
  all: rewrite ?stages_of_app; cbn [stages_of];
    rewrite ?stages_of_app, ?Hstt, ?Hst; cbn [stages_of app].
  all: split;
    [ first [ exists 1%nat; split; [lia | reflexivity]
            | exists 2%nat; split; [lia | reflexivity]
            | exists 4%nat; split; [lia | reflexivity]
            | exists 5%nat; split; [lia | reflexivity]
            | exists 6%nat; split; [lia | reflexivity] ]
    | try exact I; try reflexivity; auto 10 ].
Qed.

(** *** Further properties of the route *)

Ltac settle :=
  try match goal with
      | V : verify_api_key D _ _ = mkRun (inl _) _ _ |- _ =>
          apply verify_api_key_ok in V;
          destruct V as (-> & -> & ?ident' & ?Hk & ?Hact)
      | V : verify_api_key D _ _ = mkRun (inr _) _ _ |- _ =>
          apply verify_api_key_err in V;
          destruct V as (-> & ?Hst & ?Hnp & ?Hnr & ?s & ?d & -> & ?Hs)
      end.

(** The same, keeping which way the test of the status went. *)
Ltac walk_eq :=
  unfold proxy_vertex_predict, bind, try_except, emit, logger, ret, raise,
    parse_json, post, render;
  crunch;
  repeat (lazymatch goal with
          | |- context [match verify_api_key D ?r ?w with _ => _ end] =>
              let V := fresh "V" in
              destruct (verify_api_key D r w) as [[?key | ?e] ?wv ?ev] eqn:V
          | |- context [match json_loads D ?b with _ => _ end] =>
              let L := fresh "L" in
              destruct (json_loads D b) as [?data | | ?why] eqn:L
          | |- context [match lookup ?k ?t with _ => _ end] =>
              let K := fresh "K" in
              destruct (lookup k t) as [?ident | ] eqn:K
          | |- context [match get_token D ?w with _ => _ end] =>
              let T := fresh "T" in
              destruct (get_token D w) as [[?tok | ?e] ?wt ?et] eqn:T
          | |- context [match client_post D ?n ?u ?d ?a with _ => _ end] =>
              let P := fresh "P" in
              destruct (client_post D n u d a) as [?up | ?msg | ?what] eqn:P
          | |- context [if (400 <=? ?s)%Z then _ else _] =>
              let E := fresh "E" in destruct (400 <=? s)%Z eqn:E
          | |- context [match json_dumps D ?v with _ => _ end] =>
              let R := fresh "R" in
              destruct (json_dumps D v) as [?text | ] eqn:R
          end; crunch).

Ltac find_in :=
  cbn [In];
  lazymatch goal with
  | |- _ = _ \/ _ => first [left; reflexivity | right; find_in]
  | |- In _ (_ ++ _) => apply in_or_app; right; find_in
  end.

Lemma get_token_value (w : World) (x : option string) :
  outcome (get_token D w) = inl x -> exists t, x = Some t.
Proof.
  destruct (creds w) as [c|] eqn:Hc.
  - rewrite (get_token_run D w c Hc).
    destruct (stale D c (clock_reads w)) eqn:Hs.
    + destruct (jwt_grant D (refreshes w)) as [[t e]|]; simpl; intros H;
        inversion H; subst. eauto.
    + simpl. intros H. inversion H; subst.
      unfold stale, valid_at in Hs. destruct (token c) as [t|]; [eauto | discriminate Hs].
  - rewrite (get_token_degraded D w Hc). discriminate.
Qed.

(** What [get_token] emits and counts. *)
Lemma get_token_events (w : World) :
  let r := get_token D w in
  (forall x, In x (emitted r) -> (exists m, x = Log INFO m) \/ (exists a, x = Refresh a)) /\
  refreshes (after r) = (refreshes w + List.length (filter is_refresh (emitted r)))%nat /\
  (List.length (filter is_refresh (emitted r)) <= 1)%nat /\
  (creds (after r) = None <-> creds w = None).
Proof.
  simpl. destruct (creds w) as [c|] eqn:Hc.
  - rewrite (get_token_run D w c Hc).
    destruct (stale D c (clock_reads w)).
    + destruct (jwt_grant D (refreshes w)) as [[t e]|]; simpl;
        (split; [intros x [<-|[<-|[]]]; eauto|]);
        (split; [lia|]); (split; [lia|]); split; discriminate.
    + simpl. split; [intros x []|]. split; [lia|]. split; [lia|]. split; congruence.
  - rewrite (get_token_degraded D w Hc). simpl.
    split; [intros x []|]. split; [lia|]. split; [lia|]. tauto.
Qed.

Lemma no_post_filter {J} (l : list (event J)) : no_post l -> filter is_post l = [].
Proof.
  induction l as [|x l IH]; intros H; [reflexivity|]. simpl.
  rewrite (H x (or_introl eq_refl)). apply IH. intros y Hy. apply H. now right.
Qed.

Lemma no_refresh_filter {J} (l : list (event J)) : no_refresh l -> filter is_refresh l = [].
Proof.
  induction l as [|x l IH]; intros H; [reflexivity|]. simpl.
  rewrite (H x (or_introl eq_refl)). apply IH. intros y Hy. apply H. now right.
Qed.

(** What a request does to the process: it leaves the manager as it was or
    as one call of [get_token] leaves it, and counts at most one POST. *)
Lemma proxy_effect (model_name : string) (request : Request) (w : World) :
  let r := proxy_vertex_predict D model_name request w in
  let g := get_token D w in
  (after r = w /\ no_post (emitted r) /\ no_refresh (emitted r)) \/
  (creds (after r) = creds (after g) /\ clock_reads (after r) = clock_reads (after g) /\
   refreshes (after r) = refreshes (after g) /\
   filter is_refresh (emitted r) = filter is_refresh (emitted g) /\
   ((posts (after r) = posts w /\ filter is_post (emitted r) = []) \/
    (posts (after r) = S (posts w) /\ List.length (filter is_post (emitted r)) = 1%nat))).
Proof.
  simpl. walk.
  all: settle.
  all: try (left; repeat split; auto;
            intros x Hx; split_in Hx; subst; auto; fail).
  all: right.
  all: match goal with
       | T : get_token D _ = mkRun _ _ _ |- _ =>
           pose proof (get_token_frame_eq _ _ _ _ T) as (Hp & Hnt & _ & _);
           rewrite T
       end.
  all: cbn [outcome after emitted creds clock_reads refreshes posts].
  all: repeat split; auto.
  all: cbn [filter is_refresh is_post app];
    rewrite ?filter_app; cbn [filter is_refresh is_post app];
    rewrite ?(no_post_filter _ Hnt), ?app_nil_r; auto.
Qed.


(** X6.  A POST that fails in transport is answered 502 with the transport
    message in the detail, is logged as an error and never reaches the relay
    stage; any other exception of the HTTP client leaves the route as it is. *)
Theorem failed_post_outcome (model_name : string) (request : Request) (w : World)
  (url auth : string) (data : payload D) (answer : post_result) :
  let r := proxy_vertex_predict D model_name request w in
  In (Post url data auth answer) (emitted r) ->
  match answer with
  | Responded _ => In Relay (stages_of (emitted r))
  | RequestFailed msg =>
      outcome r = inr (HTTPException 502 ("Upstream connection failed: " ++ msg)) /\
      In (Log ERROR ("Request to Google failed: " ++ msg)) (emitted r) /\
      ~ In Relay (stages_of (emitted r))
  | PostCrashed what =>
      outcome r = inr (Uncaught what) /\ ~ In Relay (stages_of (emitted r))
  end.
Proof.
  simpl. walk; intros H.
  all: settle.
  all: try match goal with
           | T : get_token D _ = mkRun _ _ _ |- _ =>
               apply get_token_frame_eq in T; destruct T as (_ & Hnt & Hstt & _)
           end.
  all: split_in H; try discriminate H.
  all: try match goal with
           | Hn : no_post ?l, Hi : In _ ?l |- _ => apply Hn in Hi; discriminate Hi
           end.
  all: inversion H; subst.
  all: rewrite ?stages_of_app; cbn [stages_of];
    rewrite ?stages_of_app, ?Hstt; cbn [stages_of app].
  all: repeat split; auto.
  all: try solve [ find_in | intros Hx; split_in Hx; discriminate ].
Qed.

(** X7.  What is sent upstream: every POST of a run goes to the URL built from
    the model name of the path, carries the parsed body of the request and a
    Bearer header made of the token that [get_token] returned, for a caller
    that passed the check. *)
Theorem forwarded_request_content (model_name : string) (request : Request)
  (w : World) (url auth : string) (data : payload D) (answer : post_result) :
  let r := proxy_vertex_predict D model_name request w in
  In (Post url data auth answer) (emitted r) ->
  url = google_url D model_name /\
  json_loads D (raw_body request) = Loaded data /\
  (exists key, outcome (verify_api_key D request w) = inl key) /\
  (exists t, outcome (get_token D w) = inl (Some t) /\ auth = "Bearer " ++ t) /\
  answer = client_post D (posts w) url data auth.
Proof.
  simpl. walk; intros H.
  all: settle.
  all: try match goal with
           | T : get_token D _ = mkRun _ _ _ |- _ =>
               pose proof (get_token_frame_eq _ _ _ _ T) as (Hp & Hnt & _ & _);
               pose proof (get_token_value w) as Hval; rewrite T in Hval |- *;
               cbn [outcome] in Hval |- *
           end.
  all: split_in H; try discriminate H.
  all: try match goal with
           | Hn : no_post ?l, Hi : In _ ?l |- _ => apply Hn in Hi; discriminate Hi
           end.
  all: inversion H; subst.
  all: destruct (Hval _ eq_refl) as [t ->].
  all: rewrite Hp in *.
  all: repeat split; eauto.
Qed.

(** X8.  A request sends at most one POST and makes at most one refresh round
    trip, and the counters of the process advance by exactly the round trips
    the run shows. *)
Theorem one_round_trip_each (model_name : string) (request : Request) (w : World) :
  let r := proxy_vertex_predict D model_name request w in
  posts (after r) = (posts w + List.length (filter is_post (emitted r)))%nat /\
  refreshes (after r) = (refreshes w + List.length (filter is_refresh (emitted r)))%nat /\
  (List.length (filter is_post (emitted r)) <= 1)%nat /\
  (List.length (filter is_refresh (emitted r)) <= 1)%nat.
Proof.
  simpl.
  destruct (proxy_effect model_name request w)
    as [(-> & Hp & Hr) | (_ & _ & Hr & Hf & Hposts)].
  - rewrite (no_post_filter _ Hp), (no_refresh_filter _ Hr). simpl. lia.
  - destruct (get_token_events w) as (_ & Hcount & Hle & _).
    rewrite Hr, Hf, Hcount.
    destruct Hposts as [[-> ->] | [-> ->]]; simpl; lia.
Qed.

(** X9.  A POST is sent exactly when the caller passes the check, the body is
    JSON and [get_token] returns. *)
Theorem forward_iff_stages_pass (model_name : string) (request : Request) (w : World) :
  let r := proxy_vertex_predict D model_name request w in
  (exists url data auth answer, In (Post url data auth answer) (emitted r)) <->
  (exists key data tok,
     outcome (verify_api_key D request w) = inl key /\
     json_loads D (raw_body request) = Loaded data /\
     outcome (get_token D w) = inl tok).
Proof.
  simpl. walk.
  all: settle.
  all: try match goal with
           | T : get_token D _ = mkRun _ _ _ |- _ =>
               pose proof (get_token_frame_eq _ _ _ _ T) as (_ & Hnt & _ & _);
               rewrite T; cbn [outcome]
           end.
  all: split.
  all: try solve [ intros (url & dat & auth & answer & H); split_in H;
                   try discriminate H;
                   try match goal with
                       | Hn : no_post ?l, Hi : In _ ?l |- _ =>
                           apply Hn in Hi; discriminate Hi
                       end ].
  all: try solve [ intros (k & dat & tk & H1 & H2 & H3); congruence ].
  all: try solve [ intros _; eauto 8 ].
  all: intros _; do 4 eexists; find_in.
Qed.

(** X10.  For an upstream answer the status is always logged, and the body of the
    answer is written to the log, in full, exactly when the status is 400
    or more. *)
Theorem upstream_body_logged_iff_error (model_name : string) (request : Request)
  (w : World) (url auth : string) (data : payload D) (up : UpstreamResponse) :
  let r := proxy_vertex_predict D model_name request w in
  In (Post url data auth (Responded up)) (emitted r) ->
  In (Log INFO ("Google response status: " ++ str_Z (upstream_status up))) (emitted r) /\
  (In (Log ERROR ("Upstream Error Body: " ++ upstream_body up)) (emitted r)
   <-> 400 <= upstream_status up).
Proof.
  simpl. walk_eq; intros H.
  all: settle.
  all: try match goal with
           | T : get_token D _ = mkRun _ _ _ |- _ =>
               pose proof (get_token_frame_eq _ _ _ _ T) as (_ & Hnt & _ & _);
               pose proof (get_token_events w) as (Hev & _); rewrite T in Hev;
               cbn [emitted] in Hev
           end.
  all: split_in H; try discriminate H.
  all: try match goal with
           | Hn : no_post ?l, Hi : In _ ?l |- _ => apply Hn in Hi; discriminate Hi
           end.
  all: inversion H; subst.
  all: match goal with
       | |- context [Log ERROR ("Upstream Error Body: " ++ _) :: _] =>
           assert (Hge : 400 <= upstream_status up)
             by (match goal with
                 | E : (400 <=? _)%Z = true |- _ => apply Z.leb_le in E; exact E
                 end)
       | _ =>
           assert (Hlt : ~ 400 <= upstream_status up)
             by (match goal with
                 | E : (400 <=? _)%Z = false |- _ => apply Z.leb_gt in E; lia
                 end)
       end.
  all: split; [find_in|].
  all: split; [|intros Hs; try contradiction; find_in].
  all: intros Hin; try assumption; exfalso; split_in Hin; try discriminate Hin.
  all: match goal with
       | Hi : In _ ?l, He : forall x, In x ?l -> _ |- _ =>
           destruct (He _ Hi) as [[m Hm] | [a Ha]]; discriminate
       end.
Qed.


(** X11.  No request reaches the identity provider or the upstream before its
    audit line is written: in a run that sends a POST, the line naming the
    model and the display name of the caller's entry comes first, and
    nothing before it is a round trip. *)
Theorem audit_line_precedes_forward (model_name : string) (request : Request)
  (w : World) (url auth : string) (data : payload D) (answer : post_result) :
  let r := proxy_vertex_predict D model_name request w in
  In (Post url data auth answer) (emitted r) ->
  exists key ident before later,
    outcome (verify_api_key D request w) = inl key /\
    lookup key (API_KEYS D) = Some ident /\
    emitted r = (before ++
                 Log INFO ("Proxying request for model: " ++ model_name
                           ++ " by user: " ++ name ident) :: later)%list /\
    no_post before /\ no_refresh before /\ In (Post url data auth answer) later.
Proof.
  simpl. walk; intros H.
  all: settle.
  all: try match goal with
           | T : get_token D _ = mkRun _ _ _ |- _ =>
               pose proof (get_token_frame_eq _ _ _ _ T) as (_ & Hnt & _ & _)
           end.
  all: split_in H; try discriminate H.
  all: try match goal with
           | Hn : no_post ?l, Hi : In _ ?l |- _ => apply Hn in Hi; discriminate Hi
           end.
  all: inversion H; subst.
  all: match goal with
       | K : lookup ?k _ = Some ?i |- _ =>
           exists k, i, [Enter Authenticate; Enter ParseBody]
       end.
  all: eexists; split; [reflexivity|]; split; [eassumption|];
    split; [reflexivity|].
  all: split; [intros x Hx; split_in Hx; subst; reflexivity|].
  all: split; [intros x Hx; split_in Hx; subst; reflexivity|].
  all: find_in.
Qed.

(** X12.  A request whose body is not accepted by the JSON parser leaves the
    process exactly as it was and ends in the parse stage: with 400 for a
    decode error, and with the parser's own exception, unmapped, for any
    other failure of the parser. *)
Theorem rejected_body_changes_nothing (model_name : string) (request : Request)
  (w : World) (key : string) :
  outcome (verify_api_key D request w) = inl key ->
  (forall data, json_loads D (raw_body request) <> Loaded data) ->
  let r := proxy_vertex_predict D model_name request w in
  after r = w /\
  emitted r = [Enter Authenticate; Enter ParseBody] /\
  outcome r = match json_loads D (raw_body request) with
              | LoadCrashed why => inr (Uncaught ("request.json: " ++ why))
              | _ => inr (HTTPException 400 "Invalid JSON body")
              end.
Proof.
  intros Hkey Hbad. simpl. revert Hkey Hbad. walk; intros Hkey Hbad.
  all: cbn [outcome] in Hkey; try discriminate Hkey.
  all: try solve [exfalso; eapply Hbad; reflexivity].
  all: settle; auto.
Qed.

(** X13.  How a request can end.  With a response, which then carries the status
    of an upstream answer; with an HTTP error of status 401, 403, 400, 500
    or 502; with the decode error of an upstream body; or with an exception
    of the JSON codec or of the HTTP client.  It never ends with IndexError
    or KeyError from its own lookups, nor with the errors of [get_token] or
    the transport error, which it catches. *)
Theorem route_outcomes (model_name : string) (request : Request) (w : World) :
  let r := proxy_vertex_predict D model_name request w in
  match outcome r with
  | inl resp =>
      exists url data auth up,
        In (Post url data auth (Responded up)) (emitted r) /\
        status_code resp = upstream_status up
  | inr (HTTPException status _) => In status [401; 403; 400; 500; 502]
  | inr JSONDecodeError =>
      exists url data auth up,
        In (Post url data auth (Responded up)) (emitted r) /\
        json_loads D (upstream_body up) = DecodeError
  | inr (Uncaught what) =>
      (exists why, json_loads D (raw_body request) = LoadCrashed why) \/
      (exists url data auth, In (Post url data auth (PostCrashed what)) (emitted r)) \/
      (exists url data auth up,
         In (Post url data auth (Responded up)) (emitted r) /\
         ((exists why, json_loads D (upstream_body up) = LoadCrashed why) \/
          (exists v, json_loads D (upstream_body up) = Loaded v /\
                     json_dumps D v = None)))
  | inr (RuntimeError _) | inr RefreshError | inr (RequestError _) => False
  end.
Proof.
  simpl. walk.
  all: settle.
  all: try congruence.
  all: try solve [ destruct Hs as [-> | ->]; simpl; auto ].
  all: try solve [ simpl; auto 8 ].
  all: try solve [ left; eauto ].
  all: try solve [ do 4 eexists; split; [find_in | auto] ].
  all: try solve [ right; left; do 3 eexists; find_in ].
  all: right; right; do 4 eexists; split; [find_in | eauto].
Qed.

(** X14.  Whether the manager holds credentials is settled at start-up: no
    request changes it, however many are served. *)
Theorem manager_mode_is_fixed (requests : list (string * Request)) (w : World) :
  creds (serve D requests w) = None <-> creds w = None.
Proof.
  revert w. induction requests as [|[model_name request] later IH]; intros w.
  - reflexivity.
  - simpl. rewrite IH.
    destruct (proxy_effect model_name request w) as [(-> & _) | (Hc & _)].
    + reflexivity.
    + rewrite Hc. apply (get_token_events w).
Qed.

(** X15.  Serving a list of requests sends at most one POST and makes at most one
    refresh round trip per request, and the counters never go back. *)
Theorem serve_round_trips_bounded (requests : list (string * Request)) (w : World) :
  (posts w <= posts (serve D requests w) <= posts w + List.length requests)%nat /\
  (refreshes w <= refreshes (serve D requests w)
   <= refreshes w + List.length requests)%nat.
Proof.
  revert w. induction requests as [|[model_name request] later IH]; intros w.
  - simpl. lia.
  - cbn [serve List.length].
    pose proof (IH (after (proxy_vertex_predict D model_name request w))) as IHw.
    destruct (proxy_effect model_name request w)
      as [(Hw & _) | (_ & _ & Hr & _ & Hposts)].
    + rewrite Hw in *. lia.
    + destruct (get_token_events w) as (_ & Hcount & Hle & _).
      destruct Hposts as [[Hp _] | [Hp _]]; lia.
Qed.


Lemma append_cancel_l (a x y : string) : a ++ x = a ++ y -> x = y.
Proof.
  induction a as [|c a IH]; simpl; intros H; [exact H|].
  inversion H. auto.
Qed.

Lemma length_append (a b : string) :
  String.length (a ++ b) = (String.length a + String.length b)%nat.
Proof.
  induction a as [|c a IH]; simpl; [reflexivity|]. rewrite IH. reflexivity.
Qed.

Lemma append_cancel_r (b x y : string) : x ++ b = y ++ b -> x = y.
Proof.
  revert y. induction x as [|c x IH]; intros y H.
  - apply (f_equal String.length) in H.
    destruct y; [reflexivity|].
    simpl in H. rewrite length_append in H. lia.
  - destruct y as [|c' y].
    + apply (f_equal String.length) in H.
      simpl in H. rewrite length_append in H. lia.
    + simpl in H. inversion H. subst. f_equal. auto.
Qed.

(** X16.  The model name of the path reaches the upstream URL unchanged: two
    requests go to the same URL only if they name the same model. *)
Theorem google_url_injective (m1 m2 : string) :
  google_url D m1 = google_url D m2 -> m1 = m2.
Proof.
  unfold google_url. intros H.
  repeat (apply append_cancel_l in H).
  apply append_cancel_r in H. exact H.
Qed.


End Pipeline.

(** ** Concurrent callers of get_token *)

Section Concurrency.

Variable D : Deployment.

Lemma Forall_replace_nth {A} (P : A -> Prop) (i : nat) (x : A) (l : list A) :
  Forall P l -> P x -> Forall P (replace_nth i x l).
Proof.
  intros Hl Hx. revert i. induction Hl as [|y l Hy Hl IH]; intros i.
  - destruct i; constructor.
  - destruct i; simpl; constructor; auto.
Qed.

Lemma fresh_not_stale (t : string) (e : Z) (n : nat) :
  utcnow D n < e - REFRESH_THRESHOLD D ->
  utcnow D (S n) < e - REFRESH_THRESHOLD D ->
  stale D (mkCredentials (Some t) (Some e)) n = false /\
  readings D (mkCredentials (Some t) (Some e)) n = 2%nat.
Proof.
  intros H1 H2. unfold stale, readings, valid_at, expired_at. simpl.
  replace (e - REFRESH_THRESHOLD D <=? utcnow D n)%Z with false
    by (symmetry; apply Z.leb_gt; lia).
  replace (e - REFRESH_THRESHOLD D <=? utcnow D (S n))%Z with false
    by (symmetry; apply Z.leb_gt; lia).
  auto.
Qed.

Lemma readings_le_2 (c : Credentials) (n : nat) : (readings D c n <= 2)%nat.
Proof.
  unfold readings. destruct (token c); [|lia]. destruct (expiry c); [|lia].
  destruct (valid_at D c (utcnow D n)); lia.
Qed.

(** Once a token is held that stays valid over the readings the callers can
    make, no schedule of callers makes a round trip, and every caller that
    runs returns that token. *)
Lemma callers_reuse_fresh_token (t : string) (e : Z) (schedule : list nat) :
  forall tasks w tasks' w' evs,
    (forall k, (k < clock_reads w + 2 * List.length schedule)%nat ->
               utcnow D k < e - REFRESH_THRESHOLD D) ->
    creds w = Some (mkCredentials (Some t) (Some e)) ->
    Forall (fun task => task = get_token_caller D \/ task = Done (inl (Some t))) tasks ->
    event_loop D schedule tasks w = (tasks', w', evs) ->
    refreshes w' = refreshes w /\
    creds w' = Some (mkCredentials (Some t) (Some e)) /\
    Forall (fun task => task = get_token_caller D \/ task = Done (inl (Some t))) tasks' /\
    evs = [].
Proof.
  induction schedule as [|i later IH];
    intros tasks w tasks' w' evs Hfresh Hc Hall Hrun.
  - simpl in Hrun. inversion Hrun; subst. auto.
  - simpl in Hrun. cbn [List.length] in Hfresh.
    destruct (nth_error tasks i) as [task|] eqn:Hi.
    + assert (Htask : task = get_token_caller D \/ task = Done (inl (Some t))).
      { rewrite Forall_forall in Hall. apply Hall. eapply nth_error_In; eauto. }
      destruct Htask as [-> | ->].
      * unfold get_token_caller, uninterrupted, resume_task in Hrun.
        rewrite (get_token_run D w _ Hc) in Hrun.
        destruct (fresh_not_stale t e (clock_reads w)) as [Hs Hr2];
          [apply Hfresh; lia | apply Hfresh; lia |].
        rewrite Hs, Hr2 in Hrun.
        cbn [outcome after emitted token] in Hrun.
        destruct (event_loop D later _ _) as [[ts w2] ev2] eqn:Hrest.
        inversion Hrun; subst; clear Hrun.
        eapply IH in Hrest;
          [| cbn [clock_reads]; intros k Hk; apply Hfresh; lia
           | reflexivity | apply Forall_replace_nth; auto].
        destruct Hrest as (Hr & Hc' & Hall' & ->). repeat split; auto.
      * cbn [resume_task] in Hrun.
        destruct (event_loop D later _ _) as [[ts w2] ev2] eqn:Hrest.
        inversion Hrun; subst; clear Hrun.
        eapply IH in Hrest;
          [| intros k Hk; apply Hfresh; lia
           | eassumption | apply Forall_replace_nth; auto].
        destruct Hrest as (Hr & Hc' & Hall' & ->). repeat split; auto.
    + eapply IH; eauto. intros k Hk. apply Hfresh. lia.
Qed.

(** C3, as amended.  A call of [get_token] runs without interruption, so
    concurrent callers take their turns in some order.  When the token held
    is missing or expired, the refresh of the caller that comes first
    succeeds and the token it obtains stays valid over the readings of the
    clock the callers make, then however the event loop schedules the
    callers exactly one round trip to the identity provider is made: the
    caller that comes first makes it, and every caller that has run returns
    the new token. *)
Theorem one_refresh_when_it_succeeds (n : nat) (schedule : list nat) (w : World)
  (c : Credentials) (t : string) (e : Z) (tasks : list (coroutine (payload D) (option string)))
  (w' : World) (evs : list (event (payload D))) :
  creds w = Some c ->
  valid_at D c (utcnow D (clock_reads w)) = false ->
  jwt_grant D (refreshes w) = Some (t, e) ->
  (forall k, (k < clock_reads w + 2 * List.length schedule)%nat ->
             utcnow D k < e - REFRESH_THRESHOLD D) ->
  (exists i, In i schedule /\ (i < n)%nat) ->
  event_loop D schedule (repeat (get_token_caller D) n) w = (tasks, w', evs) ->
  refreshes w' = S (refreshes w) /\
  creds w' = Some (mkCredentials (Some t) (Some e)) /\
  List.length (filter is_refresh evs) = 1%nat /\
  (forall r, In (Done r) tasks -> r = inl (Some t)).
Proof.
  intros Hc Hstale Hgrant Hfresh Hsome.
  revert tasks w' evs.
  induction schedule as [|i later IH]; intros tasks w' evs Hrun.
  - destruct Hsome as (i & [] & _).
  - simpl in Hrun. cbn [List.length] in Hfresh.
    destruct (nth_error (repeat (get_token_caller D) n) i) as [task|] eqn:Hi.
    + assert (task = get_token_caller D) as ->.
      { apply nth_error_In in Hi. eapply repeat_spec; eauto. }
      unfold get_token_caller at 1, uninterrupted, resume_task in Hrun.
      rewrite (get_token_run D w c Hc) in Hrun.
      assert (Hs : stale D c (clock_reads w) = true).
      { unfold stale. rewrite Hstale. reflexivity. }
      rewrite Hs, Hgrant in Hrun.
      cbn [outcome after emitted] in Hrun. clear IH.
      destruct (event_loop D later _ _) as [[ts w2] ev2] eqn:Hrest.
      inversion Hrun; subst; clear Hrun.
      assert (Hall : Forall (fun task => task = get_token_caller D \/
                                        task = Done (inl (Some t)))
                       (replace_nth i (Done (inl (Some t)))
                                    (repeat (get_token_caller D) n))).
      { apply Forall_replace_nth; auto.
        apply Forall_forall. intros x Hx. left. eapply repeat_spec; eauto. }
      pose proof (readings_le_2 c (clock_reads w)) as Hle.
      destruct (fun Hlater Hheld =>
                  callers_reuse_fresh_token t e later _ _ _ _ _ Hlater Hheld Hall Hrest)
        as (Hr & Hc' & Hall' & ->);
        [cbn [clock_reads]; intros k Hk; apply Hfresh; lia | reflexivity |].
      cbn [refreshes] in Hr.
      split; [exact Hr|]. split; [exact Hc'|]. split; [reflexivity|].
      intros r Hin. rewrite Forall_forall in Hall'.
      destruct (Hall' _ Hin) as [H | H]; [discriminate H | inversion H; reflexivity].
    + apply IH; auto.
      * intros k Hk. apply Hfresh. lia.
      * destruct Hsome as (j & [<- | Hj] & Hlt); [|eauto].
        exfalso. apply nth_error_None in Hi. rewrite repeat_length in Hi. lia.
Qed.

End Concurrency.

(** ** Serving requests with a cached token *)

Section Serving.

Variable D : Deployment.

Lemma serve_keeps_fresh_token (t : string) (e : Z) (requests : list (string * Request)) :
  forall w,
    creds w = Some (mkCredentials (Some t) (Some e)) ->
    (forall k, (k < clock_reads w + 2 * List.length requests)%nat ->
               utcnow D k < e - REFRESH_THRESHOLD D) ->
    creds (serve D requests w) = Some (mkCredentials (Some t) (Some e)) /\
    refreshes (serve D requests w) = refreshes w.
Proof.
  induction requests as [|[model_name request] later IH]; intros w Hc Hfresh.
  - auto.
  - cbn [serve]. cbn [List.length] in Hfresh.
    destruct (proxy_effect D model_name request w)
      as [(Hw & _) | (Hc' & Hn' & Hr' & _)].
    + rewrite Hw. apply IH; auto. intros k Hk. apply Hfresh. lia.
    + rewrite (get_token_run D w _ Hc) in Hc', Hn', Hr'.
      destruct (fresh_not_stale D t e (clock_reads w)) as [Hs H2];
        [apply Hfresh; lia | apply Hfresh; lia |].
      rewrite Hs, H2 in *. cbn [after creds clock_reads refreshes] in *.
      destruct (IH (after (proxy_vertex_predict D model_name request w)))
        as [IHc IHr]; auto.
      * intros k Hk. apply Hfresh. lia.
      * split; [exact IHc | congruence].
Qed.

(** X17.  The token is cached across requests: when the next round trip to the
    identity provider grants a token that stays valid over the readings of
    the clock the requests make, serving them makes at most that one round
    trip, whatever the requests are, and the manager ends with the
    credentials it had or with the granted token. *)
Theorem token_cached_across_requests (requests : list (string * Request)) (w : World)
  (c : Credentials) (t : string) (e : Z) :
  creds w = Some c ->
  jwt_grant D (refreshes w) = Some (t, e) ->
  (forall k, (k < clock_reads w + 2 * List.length requests)%nat ->
             utcnow D k < e - REFRESH_THRESHOLD D) ->
  (creds (serve D requests w) = Some c /\
   refreshes (serve D requests w) = refreshes w) \/
  (creds (serve D requests w) = Some (mkCredentials (Some t) (Some e)) /\
   refreshes (serve D requests w) = S (refreshes w)).
Proof.
  revert w. induction requests as [|[model_name request] later IH];
    intros w Hc Hgrant Hfresh.
  - left. auto.
  - cbn [serve]. cbn [List.length] in Hfresh.
    destruct (proxy_effect D model_name request w)
      as [(Hw & _) | (Hc' & Hn' & Hr' & _)].
    + rewrite Hw. apply IH; auto. intros k Hk. apply Hfresh. lia.
    + rewrite (get_token_run D w c Hc) in Hc', Hn', Hr'.
      pose proof (readings_le_2 D c (clock_reads w)) as Hle.
      destruct (stale D c (clock_reads w)).
      * rewrite Hgrant in *. cbn [after creds clock_reads refreshes] in *.
        right.
        destruct (serve_keeps_fresh_token t e later
                    (after (proxy_vertex_predict D model_name request w)))
          as [Sc Sr]; auto.
        -- intros k Hk. apply Hfresh. lia.
        -- split; [exact Sc | congruence].
      * cbn [after creds clock_reads refreshes] in *.
        destruct (IH (after (proxy_vertex_predict D model_name request w)))
          as [[IHc IHr] | [IHc IHr]]; auto.
        -- congruence.
        -- intros k Hk. apply Hfresh. lia.
        -- left. split; [exact IHc | congruence].
        -- right. split; [exact IHc | congruence].
Qed.

End Serving.

(** ** Concrete runs *)

(** The scenario of the specification: the upstream answers 200 with a
    compact body and the client receives that status and that body. *)
Example scenario_round_trip :
  outcome (proxy_vertex_predict (answering 200 compact_body) "gemini-test"
             scenario_request ready)
  = inl (mkResponse 200 compact_body).
Proof. vm_compute. reflexivity. Qed.

Example scenario_bad_key :
  outcome (proxy_vertex_predict (answering 200 compact_body) "gemini-test"
             bad_key_request ready)
  = inr (HTTPException 401 "Invalid API Key").
Proof. vm_compute. reflexivity. Qed.

(** A header with a further field after the key is accepted under the key. *)
Example trailing_field_ignored :
  outcome (verify_api_key (answering 200 compact_body)
             (mkRequest (Some "Bearer sk-client-veo-001 and more") scenario_body) ready)
  = inl "sk-client-veo-001".
Proof. vm_compute. reflexivity. Qed.

Example disabled_key_is_403 :
  outcome (verify_api_key with_disabled_key
             (mkRequest (Some "Bearer sk-retired") scenario_body) ready)
  = inr (HTTPException 403 "API Key is inactive").
Proof. vm_compute. reflexivity. Qed.

(** C1: an upstream answer 200 whose body has a space after the colon
    reaches the client with status 200 and a body that differs from it. *)
Lemma relay_rewrites_body :
  In (Post scenario_url scenario_payload "Bearer ya29.a0"
           (Responded (mkUpstream 200 spaced_body)))
     (emitted (proxy_vertex_predict (answering 200 spaced_body) "gemini-test"
                 scenario_request ready)) /\
  outcome (proxy_vertex_predict (answering 200 spaced_body) "gemini-test"
             scenario_request ready)
  = inl (mkResponse 200 compact_body) /\
  compact_body <> spaced_body.
Proof.
  split; [|split].
  - vm_compute. repeat (first [left; reflexivity | right]).
  - vm_compute. reflexivity.
  - intros H. vm_compute in H. discriminate H.
Qed.

Lemma upstream_answer_relayed_witness :
  In (Post scenario_url scenario_payload "Bearer ya29.a0"
           (Responded (mkUpstream 429 quota_body)))
     (emitted (proxy_vertex_predict (answering 429 quota_body) "gemini-test"
                 scenario_request ready)) /\
  outcome (proxy_vertex_predict (answering 429 quota_body) "gemini-test"
             scenario_request ready)
  = inl (mkResponse 429 quota_compact).
Proof.
  assert (Hin : In (Post scenario_url scenario_payload "Bearer ya29.a0"
                         (Responded (mkUpstream 429 quota_body)))
                   (emitted (proxy_vertex_predict (answering 429 quota_body)
                               "gemini-test" scenario_request ready))).
  { vm_compute. repeat (first [left; reflexivity | right]). }
  split; [exact Hin|].
  apply (upstream_answer_relayed (answering 429 quota_body) "gemini-test"
           scenario_request ready scenario_url "Bearer ya29.a0" scenario_payload
           (Json.Obj [("error", Json.Obj [("code", Json.Int 429)])])
           (mkUpstream 429 quota_body) quota_compact Hin);
    vm_compute; reflexivity.
Defined.

Lemma non_json_answer_unhandled_witness :
  In (Post scenario_url scenario_payload "Bearer ya29.a0"
           (Responded (mkUpstream 200 "<html>")))
     (emitted (proxy_vertex_predict (answering 200 "<html>") "gemini-test"
                 scenario_request ready)) /\
  json_loads (answering 200 "<html>") "<html>" = DecodeError /\
  outcome (proxy_vertex_predict (answering 200 "<html>") "gemini-test"
             scenario_request ready)
  = inr JSONDecodeError.
Proof.
  assert (Hin : In (Post scenario_url scenario_payload "Bearer ya29.a0"
                         (Responded (mkUpstream 200 "<html>")))
                   (emitted (proxy_vertex_predict (answering 200 "<html>")
                               "gemini-test" scenario_request ready))).
  { vm_compute. repeat (first [left; reflexivity | right]). }
  assert (Hl : json_loads (answering 200 "<html>") "<html>" = DecodeError).
  { vm_compute. reflexivity. }
  split; [exact Hin|]. split; [exact Hl|].
  apply (non_json_answer_unhandled (answering 200 "<html>") "gemini-test"
           scenario_request ready scenario_url "Bearer ya29.a0" scenario_payload
           (mkUpstream 200 "<html>") Hin Hl).
Defined.

Lemma failure_before_forward_witness :
  (exists detail,
     outcome (proxy_vertex_predict with_disabled_key "gemini-test"
                (mkRequest (Some "Bearer sk-retired") scenario_body) ready)
     = inr (HTTPException 403 detail)) /\
  (exists detail,
     outcome (proxy_vertex_predict (answering 200 compact_body) "gemini-test"
                bad_json_request ready)
     = inr (HTTPException 400 detail)) /\
  (exists detail,
     outcome (proxy_vertex_predict provider_is_down "gemini-test"
                scenario_request ready)
     = inr (HTTPException 500 detail)) /\
  posts (after (proxy_vertex_predict provider_is_down "gemini-test"
                  scenario_request ready)) = 0%nat.
Proof.
  assert (H403 : fails_before_forward with_disabled_key
                   (mkRequest (Some "Bearer sk-retired") scenario_body) ready 403).
  { apply CallerRejected with (detail := "API Key is inactive"). vm_compute. reflexivity. }
  assert (H400 : fails_before_forward (answering 200 compact_body)
                   bad_json_request ready 400).
  { apply BodyMalformed with (key := "sk-client-veo-001"); vm_compute; reflexivity. }
  assert (H500 : fails_before_forward provider_is_down scenario_request ready 500).
  { apply TokenUnavailable with (key := "sk-client-veo-001")
                                (data := scenario_payload) (e := RefreshError);
      vm_compute; reflexivity. }
  split; [|split; [|split]].
  - apply (failure_before_forward with_disabled_key "gemini-test" _ ready 403 H403).
  - apply (failure_before_forward (answering 200 compact_body) "gemini-test" _ ready
             400 H400).
  - apply (failure_before_forward provider_is_down "gemini-test" _ ready 500 H500).
  - apply (failure_before_forward provider_is_down "gemini-test" _ ready 500 H500).
Defined.

Lemma degraded_manager_answers_500_witness :
  outcome (proxy_vertex_predict (answering 200 compact_body) "gemini-test"
             scenario_request
             (serve (answering 200 compact_body) [("gemini-test", scenario_request)]
                (after (GoogleAuthManager_init (answering 200 compact_body)
                          KeyAbsent boot))))
  = inr (HTTPException 500 "Internal Server Error: GCP Auth Failed").
Proof.
  apply (degraded_manager_answers_500 (answering 200 compact_body)
           [("gemini-test", scenario_request)] "gemini-test" scenario_request
           "sk-client-veo-001" scenario_payload);
    vm_compute; reflexivity.
Defined.

Lemma get_token_reuses_cached_witness :
  outcome (get_token (answering 200 compact_body) cached) = inl (Some "ya29.a0") /\
  refreshes (after (get_token (answering 200 compact_body) cached)) = 0%nat.
Proof.
  destruct (get_token_reuses_cached (answering 200 compact_body) cached
              (mkCredentials (Some "ya29.a0") (Some 4600)) eq_refl) as (Hhit & _).
  destruct (Hhit "ya29.a0" eq_refl eq_refl eq_refl) as (Hout & _ & Hcount & _).
  split; [exact Hout | exact Hcount].
Defined.

Lemma failed_refresh_is_retried_witness :
  outcome (get_token provider_is_down ready) = inr RefreshError /\
  creds (after (get_token provider_is_down ready)) = creds ready /\
  refreshes (after (get_token provider_is_down
                      (after (get_token provider_is_down ready)))) = 2%nat.
Proof.
  assert (Hmono : monotone_clock provider_is_down).
  { intros i j Hij. cbv [provider_is_down stub utcnow]. lia. }
  destruct (failed_refresh_is_retried provider_is_down ready
              (mkCredentials None None) Hmono eq_refl eq_refl eq_refl)
    as (Hout & Hheld & _ & _ & _ & Hagain & _).
  split; [exact Hout|]. split; [exact Hheld | exact Hagain].
Defined.

Lemma shipped_table_never_403_witness :
  (exists detail,
     outcome (verify_api_key (answering 200 compact_body) bad_key_request ready)
     = inr (HTTPException 401 detail)) \/
  (exists key ident,
     outcome (verify_api_key (answering 200 compact_body) bad_key_request ready)
     = inl key /\ lookup key VALID_API_KEYS = Some ident).
Proof.
  exact (shipped_table_never_403 (answering 200 compact_body) bad_key_request ready
           eq_refl).
Defined.

(** C3: two callers that both find no token, the identity provider failing:
    each of them makes a round trip. *)
Lemma two_callers_two_refreshes :
  creds ready = Some (mkCredentials None None) /\
  snd (fst (event_loop provider_is_down [0; 1]%nat
              (repeat (get_token_caller provider_is_down) 2) ready))
  = mkWorld (Some (mkCredentials None None)) 0 2 0 /\
  filter is_refresh
    (snd (event_loop provider_is_down [0; 1]%nat
            (repeat (get_token_caller provider_is_down) 2) ready))
  = [Refresh None; Refresh None].
Proof.
  split; [reflexivity|]. split; vm_compute; reflexivity.
Qed.

Lemma one_refresh_when_it_succeeds_witness :
  snd (fst (event_loop (answering 200 compact_body) [2; 0; 1; 0]%nat
              (repeat (get_token_caller (answering 200 compact_body)) 3) ready))
  = mkWorld (Some (mkCredentials (Some "ya29.a0") (Some 4600))) 4 1 0.
Proof.
  destruct (event_loop (answering 200 compact_body) [2; 0; 1; 0]%nat
              (repeat (get_token_caller (answering 200 compact_body)) 3) ready)
    as [[tasks w'] evs] eqn:Hrun.
  assert (Hw : w' = mkWorld (Some (mkCredentials (Some "ya29.a0") (Some 4600))) 4 1 0).
  { apply (f_equal (fun x => snd (fst x))) in Hrun. simpl snd in Hrun. rewrite <- Hrun.
    vm_compute. reflexivity. }
  pose proof (one_refresh_when_it_succeeds (answering 200 compact_body) 3
                [2; 0; 1; 0]%nat ready (mkCredentials None None) "ya29.a0" 4600
                tasks w' evs eq_refl eq_refl eq_refl) as Hone.
  destruct Hone as (Hcount & _).
  - intros k Hk. cbv [answering stub utcnow REFRESH_THRESHOLD ready clock_reads] in *.
    cbn [List.length] in Hk. lia.
  - exists 2%nat. split; [simpl; auto | lia].
  - exact Hrun.
  - exact Hw.
Defined.

(** C8: a run that returns a response entered the stages in the order of
    the source, which is not the order of the specification; and a run in
    which the token cannot be fetched had already built the target. *)
Lemma target_built_before_token :
  stages_of (emitted (proxy_vertex_predict (answering 200 compact_body) "gemini-test"
                        scenario_request ready))
  = [Authenticate; ParseBody; BuildTarget; FetchToken; Forward; Relay] /\
  stages_of (emitted (proxy_vertex_predict (answering 200 compact_body) "gemini-test"
                        scenario_request ready))
  <> specified_order /\
  outcome (proxy_vertex_predict provider_is_down "gemini-test" scenario_request ready)
  = inr (HTTPException 500 "Internal Server Error: GCP Auth Failed") /\
  stages_of (emitted (proxy_vertex_predict provider_is_down "gemini-test"
                        scenario_request ready))
  = [Authenticate; ParseBody; BuildTarget; FetchToken] /\
  (forall n, stages_of (emitted (proxy_vertex_predict provider_is_down "gemini-test"
                                   scenario_request ready))
             <> firstn n specified_order).
Proof.
  assert (H1 : stages_of (emitted (proxy_vertex_predict (answering 200 compact_body)
                                     "gemini-test" scenario_request ready))
               = [Authenticate; ParseBody; BuildTarget; FetchToken; Forward; Relay]).
  { vm_compute. reflexivity. }
  assert (H2 : stages_of (emitted (proxy_vertex_predict provider_is_down "gemini-test"
                                     scenario_request ready))
               = [Authenticate; ParseBody; BuildTarget; FetchToken]).
  { vm_compute. reflexivity. }
  split; [exact H1|]. split; [rewrite H1; discriminate|].
  split; [vm_compute; reflexivity|]. split; [exact H2|].
  intros n. rewrite H2. unfold specified_order.
  do 5 (destruct n as [|n]; [discriminate|]). destruct n; discriminate.
Qed.

(** ** Concrete runs of the further properties *)

Lemma get_token_returns_held_token_witness :
  exists c t,
    creds (after (get_token (answering 200 compact_body) ready)) = Some c /\
    token c = Some t /\ Some "ya29.a0" = Some t.
Proof.
  assert (H : outcome (get_token (answering 200 compact_body) ready)
              = inl (Some "ya29.a0")) by (vm_compute; reflexivity).
  exact (get_token_returns_held_token (answering 200 compact_body) ready
           (Some "ya29.a0") H).
Defined.

Lemma get_token_keeps_manager_ready_witness :
  creds (after (get_token provider_is_down ready)) = Some (mkCredentials None None) \/
  exists t e,
    jwt_grant provider_is_down (refreshes ready) = Some (t, e) /\
    creds (after (get_token provider_is_down ready))
    = Some (mkCredentials (Some t) (Some e)) /\
    outcome (get_token provider_is_down ready) = inl (Some t).
Proof.
  exact (get_token_keeps_manager_ready provider_is_down ready
           (mkCredentials None None) eq_refl).
Defined.

Lemma expired_branch_needs_clock_advance_witness :
  exists c e,
    creds crossing = Some c /\ expiry c = Some e /\
    utcnow (answering 200 compact_body) (clock_reads crossing)
    < e - REFRESH_THRESHOLD (answering 200 compact_body)
    <= utcnow (answering 200 compact_body) (S (clock_reads crossing)).
Proof.
  apply (expired_branch_needs_clock_advance (answering 200 compact_body) crossing).
  vm_compute. left. reflexivity.
Defined.

Lemma failed_post_outcome_witness :
  outcome (proxy_vertex_predict unreachable_upstream "gemini-test"
             scenario_request ready)
  = inr (HTTPException 502 "Upstream connection failed: connect timeout").
Proof.
  assert (Hin : In (Post scenario_url scenario_payload "Bearer ya29.a0"
                         (RequestFailed "connect timeout"))
                   (emitted (proxy_vertex_predict unreachable_upstream "gemini-test"
                               scenario_request ready))).
  { vm_compute. repeat (first [left; reflexivity | right]). }
  destruct (failed_post_outcome unreachable_upstream "gemini-test" scenario_request
              ready scenario_url "Bearer ya29.a0" scenario_payload
              (RequestFailed "connect timeout") Hin) as (Hout & _).
  exact Hout.
Defined.

Lemma forwarded_request_content_witness :
  scenario_url = google_url (answering 200 compact_body) "gemini-test" /\
  json_loads (answering 200 compact_body) (raw_body scenario_request)
  = Loaded scenario_payload.
Proof.
  assert (Hin : In (Post scenario_url scenario_payload "Bearer ya29.a0"
                         (Responded (mkUpstream 200 compact_body)))
                   (emitted (proxy_vertex_predict (answering 200 compact_body)
                               "gemini-test" scenario_request ready))).
  { vm_compute. repeat (first [left; reflexivity | right]). }
  destruct (forwarded_request_content (answering 200 compact_body) "gemini-test"
              scenario_request ready scenario_url "Bearer ya29.a0" scenario_payload
              (Responded (mkUpstream 200 compact_body)) Hin) as (Hurl & Hbody & _).
  split; [exact Hurl | exact Hbody].
Defined.

Lemma upstream_body_logged_iff_error_witness :
  In (Log ERROR ("Upstream Error Body: " ++ quota_body))
     (emitted (proxy_vertex_predict (answering 429 quota_body) "gemini-test"
                 scenario_request ready)).
Proof.
  assert (Hin : In (Post scenario_url scenario_payload "Bearer ya29.a0"
                         (Responded (mkUpstream 429 quota_body)))
                   (emitted (proxy_vertex_predict (answering 429 quota_body)
                               "gemini-test" scenario_request ready))).
  { vm_compute. repeat (first [left; reflexivity | right]). }
  destruct (upstream_body_logged_iff_error (answering 429 quota_body) "gemini-test"
              scenario_request ready scenario_url "Bearer ya29.a0" scenario_payload
              (mkUpstream 429 quota_body) Hin) as (_ & Hiff).
  apply Hiff. simpl. lia.
Defined.

Lemma audit_line_precedes_forward_witness :
  exists key ident before later,
    outcome (verify_api_key (answering 200 compact_body) scenario_request ready)
    = inl key /\
    lookup key (API_KEYS (answering 200 compact_body)) = Some ident /\
    emitted (proxy_vertex_predict (answering 200 compact_body) "gemini-test"
               scenario_request ready)
    = (before ++
       Log INFO ("Proxying request for model: " ++ "gemini-test"
                 ++ " by user: " ++ name ident) :: later)%list /\
    no_post before /\ no_refresh before /\
    In (Post scenario_url scenario_payload "Bearer ya29.a0"
             (Responded (mkUpstream 200 compact_body))) later.
Proof.
  apply (audit_line_precedes_forward (answering 200 compact_body) "gemini-test"
           scenario_request ready).
  vm_compute. repeat (first [left; reflexivity | right]).
Defined.

Lemma rejected_body_changes_nothing_witness :
  after (proxy_vertex_predict (answering 200 compact_body) "gemini-test"
           bad_json_request ready) = ready /\
  outcome (proxy_vertex_predict (answering 200 compact_body) "gemini-test"
             bad_json_request ready)
  = inr (HTTPException 400 "Invalid JSON body").
Proof.
  assert (Hkey : outcome (verify_api_key (answering 200 compact_body)
                            bad_json_request ready) = inl "sk-client-veo-001")
    by (vm_compute; reflexivity).
  assert (Hbad : forall data, json_loads (answering 200 compact_body)
                                (raw_body bad_json_request) <> Loaded data)
    by (intros data H; vm_compute in H; discriminate H).
  destruct (rejected_body_changes_nothing (answering 200 compact_body) "gemini-test"
              bad_json_request ready "sk-client-veo-001" Hkey Hbad)
    as (Hw & _ & Hout).
  split; [exact Hw | exact Hout].
Defined.

Lemma google_url_injective_witness :
  google_url (answering 200 compact_body) "gemini-test"
  = google_url (answering 200 compact_body) "gemini-test" /\
  "gemini-test" = "gemini-test".
Proof.
  split; [reflexivity|].
  exact (google_url_injective (answering 200 compact_body) "gemini-test"
           "gemini-test" eq_refl).
Defined.

Lemma token_cached_across_requests_witness :
  (creds (serve (answering 200 compact_body)
            [("gemini-test", scenario_request); ("gemini-test", bad_json_request);
             ("veo-001-preview", scenario_request)] ready)
   = Some (mkCredentials None None) /\
   refreshes (serve (answering 200 compact_body)
                [("gemini-test", scenario_request); ("gemini-test", bad_json_request);
                 ("veo-001-preview", scenario_request)] ready)
   = refreshes ready) \/
  (creds (serve (answering 200 compact_body)
            [("gemini-test", scenario_request); ("gemini-test", bad_json_request);
             ("veo-001-preview", scenario_request)] ready)
   = Some (mkCredentials (Some "ya29.a0") (Some 4600)) /\
   refreshes (serve (answering 200 compact_body)
                [("gemini-test", scenario_request); ("gemini-test", bad_json_request);
                 ("veo-001-preview", scenario_request)] ready)
   = S (refreshes ready)).
Proof.
  apply (token_cached_across_requests (answering 200 compact_body) _ ready
           (mkCredentials None None) "ya29.a0" 4600 eq_refl eq_refl).
  intros k Hk. cbv [answering stub utcnow REFRESH_THRESHOLD ready clock_reads] in *.
  cbn [List.length] in Hk. lia.
Defined.

(** ** The caller check and the parse stage against the specification *)

(** C6: the header of a shipped key followed by further fields is accepted
    under that key, where the specification, which takes what follows the
    scheme as the key, asks for 401: that text is in no table entry. *)
Lemma trailing_field_accepted :
  outcome (verify_api_key (answering 200 compact_body)
             (mkRequest (Some trailing_header) scenario_body) ready)
  = inl "sk-client-veo-001" /\
  lookup "sk-client-veo-001 and more" VALID_API_KEYS = None /\
  authenticates_as_specified VALID_API_KEYS (Some trailing_header)
    (inr (HTTPException 401 "Invalid API Key")) /\
  ~ authenticates_as_specified VALID_API_KEYS (Some trailing_header)
      (outcome (verify_api_key (answering 200 compact_body)
                  (mkRequest (Some trailing_header) scenario_body) ready)).
Proof.
  assert (Hout : outcome (verify_api_key (answering 200 compact_body)
                            (mkRequest (Some trailing_header) scenario_body) ready)
                 = inl "sk-client-veo-001") by (vm_compute; reflexivity).
  split; [exact Hout|]. split; [reflexivity|]. split.
  - apply (Specified_unknown VALID_API_KEYS "sk-client-veo-001 and more").
    reflexivity.
  - rewrite Hout. intros H. inversion H.
Qed.

(** C2: a request of an accepted caller whose body is the one byte FF.  The
    body is not JSON, and yet the answer is not 400: decoding it raises
    UnicodeDecodeError, which the except clause around the parse does not
    catch, so the route ends with that exception.  No token is fetched and
    no POST is sent. *)
Lemma undecodable_body_is_not_400 :
  outcome (verify_api_key decoding undecodable_request ready) = inl "sk-client-veo-001" /\
  json_loads decoding (raw_body undecodable_request) = LoadCrashed "UnicodeDecodeError" /\
  outcome (proxy_vertex_predict decoding "gemini-test" undecodable_request ready)
  = inr (Uncaught "request.json: UnicodeDecodeError") /\
  (forall detail,
     outcome (proxy_vertex_predict decoding "gemini-test" undecodable_request ready)
     <> inr (HTTPException 400 detail)) /\
  after (proxy_vertex_predict decoding "gemini-test" undecodable_request ready) = ready.
Proof.
  assert (Hout : outcome (proxy_vertex_predict decoding "gemini-test"
                            undecodable_request ready)
                 = inr (Uncaught "request.json: UnicodeDecodeError"))
    by (vm_compute; reflexivity).
  split; [vm_compute; reflexivity|]. split; [vm_compute; reflexivity|].
  split; [exact Hout|]. split; [|vm_compute; reflexivity].
  intros detail. rewrite Hout. discriminate.
Qed.
